(** * archiver: a mail archive delivery service

    A shallow embedding of [archiver/database.py], [archiver/loader.py],
    [archiver/resource.py] and [archiver/wsgi.py].

    - The relational store is a record of tables.  Tables that are only read
      through their primary key are finite maps keyed by it; the [dispatch]
      table is a list of rows in heap (scan) order, because the order in which
      a statement meets its rows is observable once an [ORDER BY] leaves ties.
    - Timestamps are integers (microseconds); [now()] is the start time of the
      running transaction, as in PostgreSQL.
    - Python [bytes] are lists of [byte]; a Python [str] that goes through a
      codec is a list of code points.
    - Exceptions are values: a computation that can raise returns a sum.
    - Library calls (JWT verification, content negotiation, the RFC 5322
      parser, the scrubber, libmagic, the codec registry) are section
      variables. *)

From Stdlib Require Import ZArith NArith Strings.Byte String Ascii List Sorted.
From Stdlib Require Import DecimalString DecimalPos DecimalN.
From stdpp Require Import base option list gmap strings.

Local Open Scope Z_scope.

(** ** Python values *)

Definition bytes := list byte.

(** A Python [str] as the list of its code points. *)
Definition pystr := list N.

Inductive Exception :=
| UnicodeDecodeError
| UnicodeEncodeError
| LookupError
| TypeError
| AttributeError
| KeyError
| MultipleResultsFound.

(** [issubclass(e, ValueError)]: of the exceptions above only the two
    [UnicodeError]s derive from [ValueError]. *)
Definition is_ValueError (e : Exception) : bool :=
  match e with
  | UnicodeDecodeError | UnicodeEncodeError => true
  | _ => false
  end.

(** Raising is the left summand; a statement after a call that raised does
    not run. *)
#[global] Instance exception_bind : MBind (sum Exception) :=
  λ A B f m, match m with inl e => inl e | inr a => f a end.

#[global] Instance exception_ret : MRet (sum Exception) := λ A a, inr a.

(** ** Codecs *)

Module Codec.

Record t := {
  decode : bytes -> option pystr;
  encode : pystr -> option bytes
}.

Definition byte_of (n : N) : byte :=
  match Byte.of_N n with
  | Some b => b
  | None => x00
  end.

Definition between (lo n hi : N) : bool := ((lo <=? n) && (n <=? hi))%N.

Definition continuation (n : N) : bool := between 128 n 191.

(** The strict UTF-8 decoder: shortest form only, no surrogates, nothing
    above U+10FFFF. *)
Fixpoint utf8_decode (bs : bytes) : option pystr :=
  match bs with
  | [] => Some []
  | b0 :: r0 =>
    let n0 := Byte.to_N b0 in
    if (n0 <? 128)%N then
      cons n0 <$> utf8_decode r0
    else if between 194 n0 223 then
      match r0 with
      | b1 :: r1 =>
        let n1 := Byte.to_N b1 in
        if continuation n1
        then cons ((n0 - 192) * 64 + (n1 - 128))%N <$> utf8_decode r1
        else None
      | _ => None
      end
    else if between 224 n0 239 then
      match r0 with
      | b1 :: b2 :: r2 =>
        let n1 := Byte.to_N b1 in
        let n2 := Byte.to_N b2 in
        let lo := if (n0 =? 224)%N then 160%N else 128%N in
        let hi := if (n0 =? 237)%N then 159%N else 191%N in
        if between lo n1 hi && continuation n2
        then cons ((n0 - 224) * 4096 + (n1 - 128) * 64 + (n2 - 128))%N
               <$> utf8_decode r2
        else None
      | _ => None
      end
    else if between 240 n0 244 then
      match r0 with
      | b1 :: b2 :: b3 :: r3 =>
        let n1 := Byte.to_N b1 in
        let n2 := Byte.to_N b2 in
        let n3 := Byte.to_N b3 in
        let lo := if (n0 =? 240)%N then 144%N else 128%N in
        let hi := if (n0 =? 244)%N then 143%N else 191%N in
        if between lo n1 hi && continuation n2 && continuation n3
        then cons ((n0 - 240) * 262144 + (n1 - 128) * 4096
                   + (n2 - 128) * 64 + (n3 - 128))%N
               <$> utf8_decode r3
        else None
      | _ => None
      end
    else None
  end.

Definition utf8_encode_char (c : N) : option bytes :=
  if (c <? 128)%N then Some [byte_of c]
  else if (c <? 2048)%N then
    Some [byte_of (192 + c / 64); byte_of (128 + c mod 64)]%N
  else if (c <? 65536)%N then
    if between 55296 c 57343 then None
    else Some [byte_of (224 + c / 4096); byte_of (128 + (c / 64) mod 64);
               byte_of (128 + c mod 64)]%N
  else if (c <? 1114112)%N then
    Some [byte_of (240 + c / 262144); byte_of (128 + (c / 4096) mod 64);
          byte_of (128 + (c / 64) mod 64); byte_of (128 + c mod 64)]%N
  else None.

Fixpoint utf8_encode (s : pystr) : option bytes :=
  match s with
  | [] => Some []
  | c :: s' =>
    match utf8_encode_char c, utf8_encode s' with
    | Some b, Some bs => Some (b ++ bs)
    | _, _ => None
    end
  end.

Definition utf8 : t := {| decode := utf8_decode; encode := utf8_encode |}.

(** A codec that maps every byte to one code point below [limit]:
    [limit = 256] is ISO 8859-1, [limit = 128] is US-ASCII. *)
Fixpoint single_decode (limit : N) (bs : bytes) : option pystr :=
  match bs with
  | [] => Some []
  | b :: r =>
    if (Byte.to_N b <? limit)%N
    then cons (Byte.to_N b) <$> single_decode limit r
    else None
  end.

Fixpoint single_encode (limit : N) (s : pystr) : option bytes :=
  match s with
  | [] => Some []
  | c :: r =>
    if (c <? limit)%N
    then cons (byte_of c) <$> single_encode limit r
    else None
  end.

Definition latin_1 : t :=
  {| decode := single_decode 256; encode := single_encode 256 |}.

Definition ascii : t :=
  {| decode := single_decode 128; encode := single_encode 128 |}.

End Codec.

(** ** [archiver/database.py]: the four tables

    A row of [mail], [attachment] and [consumer] is stored under its primary
    key, which therefore is not repeated in the row. *)

Module Mail.
Record t := {
  date : Z;
  text : string;
  data : bytes
}.
End Mail.

Module Attachment.
Record t := {
  name : option string;
  type : string;
  code : option string;
  data : bytes
}.
End Attachment.

Module Consumer.
Record t := {
  name : string
}.
End Consumer.

Module Dispatch.
Record t := {
  consumer_id : Z;
  mail_id : string;
  last_time : option Z;
  next_time : Z;
  created_at : Z
}.

Definition key (d : t) : Z * string := (consumer_id d, mail_id d).
End Dispatch.

Record Database := {
  mail : gmap string Mail.t;
  attachment : gmap (string * Z) Attachment.t;
  consumer : gmap Z Consumer.t;
  dispatch : list Dispatch.t
}.

(** The constraints of the schema on [dispatch]: its primary key
    [(consumer_id, mail_id)] and its foreign key to [mail]. *)
Definition dispatch_primary_key (db : Database) : Prop :=
  NoDup (Dispatch.key <$> dispatch db).

Definition dispatch_to_mail (db : Database) : Prop :=
  ∀ d, d ∈ dispatch db → is_Some (mail db !! Dispatch.mail_id d).

(** [timedelta(hours=1)] *)
Definition hour : Z := 3600000000.

(** *** Queries *)

(** [ORDER BY key ASC] over the rows in the order the executor produced them;
    rows with equal keys stay in that order. *)
Fixpoint order_insert {A} (key : A → Z) (x : A) (l : list A) : list A :=
  match l with
  | [] => [x]
  | y :: l' =>
    if key x <=? key y then x :: y :: l' else y :: order_insert key x l'
  end.

Fixpoint order_by {A} (key : A → Z) (l : list A) : list A :=
  match l with
  | [] => []
  | x :: l' => order_insert key x (order_by key l')
  end.

(** [Result.one_or_none()] *)
Definition one_or_none {A} (rows : list A) : Exception + option A :=
  match rows with
  | [] => inr None
  | [x] => inr (Some x)
  | _ => inl MultipleResultsFound
  end.

(** [Session.scalar(stmt)]: the first row or [None]. *)
Definition scalar {A} (rows : list A) : option A := head rows.

(** A loaded [Mail] object: its key, its columns and, where the query loads
    them, its [attachments] relationship. *)
Record MailObject := {
  mail_object_id : string;
  mail_object_row : Mail.t;
  mail_object_attachments : list (Z * Attachment.t)
}.

(** The [Mail.attachments] relationship, [order_by=Attachment.number.asc()]. *)
Definition Mail_attachments (db : Database) (id : string)
  : list (Z * Attachment.t) :=
  order_by fst
    ((λ kv, (snd (fst kv), snd kv)) <$>
       map_to_list (filter (λ kv, fst (fst kv) = id) (attachment db))).

(** The inner join [dispatch JOIN mail ON mail.id = dispatch.mail_id] for one
    dispatch row. *)
Definition Dispatch_mail (db : Database) (d : Dispatch.t)
  : option (string * Mail.t) :=
  (λ m, (Dispatch.mail_id d, m)) <$> mail db !! Dispatch.mail_id d.

(** [Mail.consumer_select(consumer)]:
    [select(Mail).select_from(Dispatch).filter_by(consumer=consumer)
       .join(Dispatch.mail)]. *)
Definition Mail_consumer_select (db : Database) (consumer : Z)
  : list (string * Mail.t) :=
  omap (Dispatch_mail db)
    (filter (λ d, Dispatch.consumer_id d = consumer) (dispatch db)).

(** [stmt.filter_by(id=id)] on a select of [Mail]. *)
Definition filter_by_id (id : string) (rows : list (string * Mail.t))
  : list (string * Mail.t) :=
  filter (λ r, fst r = id) rows.

(** A [Dispatch] row for the pair exists. *)
Definition has_dispatch (db : Database) (consumer : Z) (id : string) : Prop :=
  Exists (λ d, Dispatch.key d = (consumer, id)) (dispatch db).

(** ** [archiver/resource.py]: the wire shapes *)

Module Resource.

Record Attachment := {
  attachment_mail_id : string;
  attachment_number : Z;
  attachment_name : option string;
  attachment_type : string;
  attachment_code : option string
}.

Record Target := {
  target_name : option string;
  target_addr_spec : string
}.

Record Mail := {
  id : string;
  date : Z;
  text : string;
  from_ : option (list Target);
  sender : option Target;
  reply_to : option (list Target);
  to : option (list Target);
  cc : option (list Target);
  bcc : option (list Target);
  subject : option string;
  in_reply_to : option (list string);
  references : option (list string);
  attachments : list Attachment
}.

#[global] Instance Target_eq_dec : EqDecision Target.
Proof. solve_decision. Defined.

(** The computed field [self]: [None] outside an application context. *)
Definition Attachment_self (current_app : option (string → Z → string))
    (a : Attachment) : option string :=
  match current_app with
  | None => None
  | Some url_for => Some (url_for (attachment_mail_id a) (attachment_number a))
  end.

Definition Mail_self (current_app : option (string → string)) (m : Mail)
  : option string :=
  match current_app with
  | None => None
  | Some url_for => Some (url_for (id m))
  end.

(** [AttachmentResource.model_validate(attachment, from_attributes=True)] *)
Definition Attachment_model_validate (mail_id : string)
    (a : Z * Attachment.t) : Attachment :=
  {| attachment_mail_id := mail_id;
     attachment_number := fst a;
     attachment_name := Attachment.name (snd a);
     attachment_type := Attachment.type (snd a);
     attachment_code := Attachment.code (snd a) |}.

End Resource.

(** ** [archiver/loader.py] *)

(** What the e-mail parser hands to the code: the headers it reads. *)
Record Address := {
  display_name : string;
  addr_spec : string
}.

Record Message := {
  Message_ID : option string;
  Date : option Z;
  From : option (list Address);
  Sender : option Address;
  Reply_To : option (list Address);
  To : option (list Address);
  Cc : option (list Address);
  Bcc : option (list Address);
  In_Reply_To : option string;
  References : option string;
  Subject : option string
}.

(** The payload of a scrubbed part is [bytes | str]. *)
Inductive Payload :=
| PBytes (b : bytes)
| PStr (s : pystr).

(** One tuple [(number, name, type, code, data)] of the scrubber. *)
Record Part := {
  part_number : Z;
  part_name : string;
  part_type : string;
  part_code : option string;
  part_data : Payload
}.

(** [Magic.from_buffer]: raises [MagicException], or returns [None] or an
    estimate such as [text/x-diff; charset=utf-8]. *)
Inductive MagicResult :=
| MagicException
| MagicEstimate (estimate : option string).

(** [code or "utf-8"]: [None] and the empty string are false. *)
Definition code_or_utf8 (code : option string) : string :=
  match code with
  | Some c => if decide (c = "") then "utf-8" else c
  | None => "utf-8"
  end.

Definition startswith (s prefix : string) : bool := String.prefix prefix s.

Section Loader.

(** [codecs.lookup]; [None] is [LookupError: unknown encoding]. *)
Variable codecs_lookup : string → option Codec.t.
Variable MAGIC_from_buffer : Payload → MagicResult.
(** [DEFAULT_POLICY.header_factory("Content-Type", estimate)], read as
    [(header.content_type, header.params.get("charset"))]. *)
Variable content_type_header : string → string * option string.
Variable PARSER_parsebytes : bytes → Message.
Variable Scrubber_scrub : Message → string * list Part.
Variable unquote : string → string.
Variable str_strip : string → string.
Variable str_split : string → list string.

(** [bytes.decode(encoding)] *)
Definition bytes_decode (b : bytes) (encoding : string)
  : Exception + pystr :=
  match codecs_lookup encoding with
  | None => inl LookupError
  | Some c =>
    match Codec.decode c b with
    | Some s => inr s
    | None => inl UnicodeDecodeError
    end
  end.

(** [str.encode(encoding)] *)
Definition str_encode (s : pystr) (encoding : string)
  : Exception + bytes :=
  match codecs_lookup encoding with
  | None => inl LookupError
  | Some c =>
    match Codec.encode c s with
    | Some b => inr b
    | None => inl UnicodeEncodeError
    end
  end.

Definition estimate_type (data : Payload) : option (string * option string) :=
  match MAGIC_from_buffer data with
  | MagicException => None
  | MagicEstimate None => None
  | MagicEstimate (Some estimate) => Some (content_type_header estimate)
  end.

(** The sniffing step of the loop body: lines 41-42. *)
Definition sniff (p : Part) : string * option string :=
  if bool_decide (part_type p = "application/octet-stream")
     || bool_decide (part_type p = "text/plain")
  then
    match estimate_type (part_data p) with
    | Some estimate => estimate
    | None => (part_type p, part_code p)
    end
  else (part_type p, part_code p).

(** The decoding step, lines 44-46: [contextlib.suppress(ValueError)]
    swallows the exception only when it is a [ValueError]. *)
Definition decode_text (type : string) (code : option string)
    (data : Payload) : Exception + Payload :=
  match data with
  | PBytes b =>
    if startswith type "text/" then
      match bytes_decode b (code_or_utf8 code) with
      | inr s => inr (PStr s)
      | inl e => if is_ValueError e then inr data else inl e
      end
    else inr data
  | PStr _ => inr data
  end.

(** The re-encoding step, lines 48-49.  The right-hand side of
    [data, code = data.encode(code or "utf-8"), "utf-8"] is evaluated
    before either name is bound. *)
Definition encode_text (code : option string) (data : Payload)
  : Exception + (bytes * option string) :=
  match data with
  | PStr s =>
    match str_encode s (code_or_utf8 code) with
    | inr b => inr (b, Some "utf-8")
    | inl e => inl e
    end
  | PBytes b => inr (b, code)
  end.

(** The body of the [for] loop of [load_mail_record]. *)
Definition load_attachment (p : Part) : Exception + (Z * Attachment.t) :=
  let '(type, code) := sniff p in
  data ← decode_text type code (part_data p);
  '(data, code) ← encode_text code data;
  mret (part_number p,
        {| Attachment.name := Some (part_name p);
           Attachment.type := type;
           Attachment.code := if startswith type "text/" then code else None;
           Attachment.data := data |}).

Definition load_mail_record (origin : bytes) : Exception + MailObject :=
  let message := PARSER_parsebytes origin in
  id ← from_option (λ h, inr (unquote h)) (inl TypeError)
         (Message_ID message);
  date ← from_option inr (inl AttributeError) (Date message);
  let '(text, attachments) := Scrubber_scrub message in
  let text := str_strip text in
  attachments ← mapM load_attachment attachments;
  mret {| mail_object_id := id;
          mail_object_row :=
            {| Mail.date := date; Mail.text := text; Mail.data := origin |};
          mail_object_attachments := attachments |}.

Definition target_of (a : Address) : Resource.Target :=
  {| Resource.target_name := Some (display_name a);
     Resource.target_addr_spec := addr_spec a |}.

(** [unroll]: the addresses of a header, each one once, first occurrence
    kept. *)
Definition unroll (addresses : list Address) : list Resource.Target :=
  foldl (λ result address,
           let target := target_of address in
           if decide (target ∈ result) then result else result ++ [target])
        [] addresses.

Definition load_mail_resource (mail : MailObject) : Resource.Mail :=
  let message := PARSER_parsebytes (Mail.data (mail_object_row mail)) in
  {| Resource.id := mail_object_id mail;
     Resource.date := Mail.date (mail_object_row mail);
     Resource.text := Mail.text (mail_object_row mail);
     Resource.from_ := unroll <$> From message;
     Resource.sender := target_of <$> Sender message;
     Resource.reply_to := unroll <$> Reply_To message;
     Resource.to := unroll <$> To message;
     Resource.cc := unroll <$> Cc message;
     Resource.bcc := unroll <$> Bcc message;
     Resource.subject := str_strip <$> Subject message;
     Resource.in_reply_to :=
       (λ h, unquote <$> str_split h) <$> In_Reply_To message;
     Resource.references :=
       (λ h, unquote <$> str_split h) <$> References message;
     Resource.attachments :=
       Resource.Attachment_model_validate (mail_object_id mail)
         <$> mail_object_attachments mail |}.

End Loader.

(** ** [archiver/wsgi.py] *)

#[global] Instance byte_eq_dec : EqDecision byte := Byte.byte_eq_dec.

#[global] Instance Mail_eq_dec : EqDecision Mail.t.
Proof. solve_decision. Defined.

(** [werkzeug.datastructures.WWWAuthenticate(scheme, parameters)] *)
Record WWWAuthenticate := {
  auth_scheme : string;
  auth_parameters : list (string * string)
}.

Inductive Body :=
| BodyText (s : string)
| BodyStr (s : pystr)
| BodyBytes (b : bytes)
| BodyMail (m : Resource.Mail)
| BodyMails (l : list Resource.Mail)
| BodyAttachment (a : Resource.Attachment)
| BodyStream.

Record Response := {
  status : Z;
  content_type : option string;
  www_authenticate : option WWWAuthenticate;
  body : Body
}.

(** What a view does: raise, or return a response. *)
Definition View := (Exception + Response)%type.

(** [return body, status] *)
Definition make (body : Body) (status : Z) : Response :=
  {| status := status; content_type := None; www_authenticate := None;
     body := body |}.

Definition Not_Found : Response := make (BodyText "Not Found") 404.
Definition Not_Acceptable : Response := make (BodyText "Not Acceptable") 406.
Definition Forbidden : Response := make (BodyText "Forbidden") 403.

(** [werkzeug.datastructures.Authorization]: the lower-cased scheme and the
    token that follows it. *)
Record Authorization := {
  authorization_type : string;
  authorization_token : option string
}.

(** [request.accept_mimetypes]: the values of the Accept header with their
    quality, in thousandths. *)
Definition Accept := list (string * N).

Record Request := {
  routing_exception : bool;
  authorization : option Authorization;
  host : string;
  accept_mimetypes : Accept
}.

(** The subclasses of [jwt.exceptions.InvalidTokenError] that [jwt.decode]
    raises. *)
Inductive InvalidTokenError :=
| DecodeError
| InvalidSignatureError
| InvalidAlgorithmError
| MissingRequiredClaimError (claim : string)
| OtherInvalidTokenError.

(** *** The pattern [^consumer_id=([0-9]+)$] *)

Definition is_digit (a : ascii) : bool :=
  (48 <=? nat_of_ascii a)%nat && (nat_of_ascii a <=? 57)%nat.

Fixpoint strip_prefix (prefix s : string) : option string :=
  match prefix, s with
  | EmptyString, _ => Some s
  | String a prefix', String b s' =>
    if decide (a = b) then strip_prefix prefix' s' else None
  | String _ _, EmptyString => None
  end.

(** The longest run of digits at the head of [s], and what follows it. *)
Fixpoint span_digits (s : string) : string * string :=
  match s with
  | EmptyString => (EmptyString, EmptyString)
  | String a s' =>
    if is_digit a
    then let '(digits, rest) := span_digits s' in (String a digits, rest)
    else (EmptyString, s)
  end.

(** [re.match(r"^consumer_id=([0-9]+)$", sub)], giving [m.group(1)].
    [$] also matches just before a newline that ends the string. *)
Definition re_match_consumer_id (sub : string) : option string :=
  match strip_prefix "consumer_id=" sub with
  | None => None
  | Some rest =>
    let '(digits, tail) := span_digits rest in
    if decide (digits = EmptyString) then None
    else if decide (tail = EmptyString) then Some digits
    else if decide (tail = String (ascii_of_nat 10) EmptyString)
    then Some digits
    else None
  end.

(** [int(digits)] for a run of decimal digits. *)
Definition int_of_digits (digits : string) : Z :=
  fold_left (λ n a, 10 * n + (Z.of_nat (nat_of_ascii a) - 48))
            (list_ascii_of_string digits) 0.

(** What [authenticate] leaves behind: it returns a response, or returns
    [None] with or without [g.consumer] bound, or raises. *)
Inductive Authentication :=
| Respond (r : Response)
| Skip
| Bind (consumer : Z)
| Fail (e : Exception).

Section Authenticate.

Variable secret_key : string.
(** [jwt.decode(token, secret, algorithms=["HS256"],
    options={"require": ["sub"]})]: the claims, or the error raised. *)
Variable jwt_decode : string → string → InvalidTokenError + gmap string string.

(** [reject]: 401 with a [WWW-Authenticate: bearer] header whose
    parameters are [realm] and then the keyword arguments. *)
Definition reject (request : Request) (kwargs : list (string * string))
  : Response :=
  {| status := 401;
     content_type := None;
     www_authenticate :=
       Some {| auth_scheme := "bearer";
               auth_parameters := ("realm", host request) :: kwargs |};
     body := BodyText "Unauthorized" |}.

Definition authenticate (db : Database) (request : Request)
  : Authentication :=
  if routing_exception request then Skip
  else
    match authorization request with
    | None => Respond (reject request [])
    | Some authorization =>
      if negb (bool_decide (authorization_type authorization = "bearer"))
      then Respond (reject request [])
      else
        match authorization_token authorization with
        | None => Respond (reject request [("error", "invalid_request")])
        | Some token =>
          if decide (token = "")
          then Respond (reject request [("error", "invalid_request")])
          else
            match jwt_decode token secret_key with
            | inl _ => Respond (reject request [("error", "invalid_token")])
            | inr data =>
              match data !! "sub" with
              | None => Fail KeyError
              | Some sub =>
                match re_match_consumer_id sub with
                | None =>
                  Respond (reject request [("error", "invalid_token")])
                | Some digits =>
                  match consumer db !! int_of_digits digits with
                  | None => Respond Forbidden
                  | Some _ => Bind (int_of_digits digits)
                  end
                end
              end
            end
        end
    end.

End Authenticate.

(** [UPDATE dispatch SET last_time = now(), next_time = now() + '1 hour'] on
    one row. *)
Definition Dispatch_advance (now : Z) (d : Dispatch.t) : Dispatch.t :=
  {| Dispatch.consumer_id := Dispatch.consumer_id d;
     Dispatch.mail_id := Dispatch.mail_id d;
     Dispatch.last_time := Some now;
     Dispatch.next_time := now + hour;
     Dispatch.created_at := Dispatch.created_at d |}.

Definition with_dispatch (db : Database) (rows : list Dispatch.t) : Database :=
  {| mail := mail db; attachment := attachment db; consumer := consumer db;
     dispatch := rows |}.

(** The rows [dispatch_select] ranges over: those of the consumer that are
    due at [now]. *)
Definition due (consumer_id now : Z) (d : Dispatch.t) : Prop :=
  Dispatch.consumer_id d = consumer_id ∧ Dispatch.next_time d ≤ now.

#[global] Instance due_dec consumer_id now d : Decision (due consumer_id now d).
Proof. unfold due. apply _. Defined.

Section Handlers.

(** [MIMEAccept.best_match(matches)] *)
Variable best_match : Accept → list string → option string.
(** [werkzeug.utils.get_content_type(mimetype, charset)] *)
Variable get_content_type : string → string → string.
Variable PARSER_parsebytes : bytes → Message.
Variable unquote : string → string.
Variable str_strip : string → string.
Variable str_split : string → list string.

Local Abbreviation load_mail_resource :=
  (load_mail_resource PARSER_parsebytes unquote str_strip str_split).

(** The negotiation every view starts with: without an Accept value the
    type is [application/json]. *)
Definition negotiate (request : Request) (mime : list string)
  : option string :=
  match accept_mimetypes request with
  | [] => Some "application/json"
  | _ => best_match (accept_mimetypes request) mime
  end.

Definition retrieve_mail_as_text (db : Database) (consumer : Z)
    (id mimetype : string) : View :=
  let stmt := filter_by_id id (Mail_consumer_select db consumer) in
  mail ← one_or_none stmt;
  match mail with
  | None => mret Not_Found
  | Some mail =>
    data ← from_option inr (inl UnicodeDecodeError)
             (Codec.utf8_decode (Mail.data (snd mail)));
    mret {| status := 200;
            content_type := Some (get_content_type mimetype "utf-8");
            www_authenticate := None;
            body := BodyStr data |}
  end.

Definition retrieve_mail_as_json (db : Database) (consumer : Z)
    (id : string) : View :=
  let stmt := filter_by_id id (Mail_consumer_select db consumer) in
  mail ← one_or_none (remove_dups stmt);
  match mail with
  | None => mret Not_Found
  | Some mail =>
    let resource :=
      load_mail_resource
        {| mail_object_id := fst mail;
           mail_object_row := snd mail;
           mail_object_attachments := Mail_attachments db (fst mail) |} in
    mret {| status := 200;
            content_type := Some "application/json";
            www_authenticate := None;
            body := BodyMail resource |}
  end.

Definition retrieve_mail (db : Database) (request : Request)
    (consumer : Z) (id : string) : View :=
  let mime := ["text/plain"; "application/json"; "message/rfc822"] in
  let unacceptable : View :=
    let stmt := filter_by_id id (Mail_consumer_select db consumer) in
    match stmt with
    | [] => inr Not_Found
    | _ => inr Not_Acceptable
    end in
  match negotiate request mime with
  | Some mimetype =>
    if bool_decide (mimetype = "text/plain")
       || bool_decide (mimetype = "message/rfc822")
    then retrieve_mail_as_text db consumer id mimetype
    else if bool_decide (mimetype = "application/json")
    then retrieve_mail_as_json db consumer id
    else unacceptable
  | None => unacceptable
  end.

(** [DELETE FROM dispatch WHERE mail_id = :id AND consumer_id = :consumer],
    committed; the view answers from the row count. *)
Definition delete_mail (db : Database) (consumer : Z) (id : string)
  : Response * Database :=
  let doomed d :=
    Dispatch.mail_id d = id ∧ Dispatch.consumer_id d = consumer in
  let result := length (filter doomed (dispatch db)) in
  let db' := with_dispatch db (filter (λ d, ¬ doomed d) (dispatch db)) in
  (if decide (result = 0%nat) then Not_Found else make (BodyText "") 200,
   db').

Definition with_type (status : Z) (type : string) (body : Body) : Response :=
  {| status := status; content_type := Some type;
     www_authenticate := None; body := body |}.

Definition retrieve_attachment_as_text (a : Attachment.t) : Response :=
  with_type 200
    match Attachment.code a with
    | Some code => get_content_type "text/plain" code
    | None => "text/plain"
    end
    (BodyBytes (Attachment.data a)).

Definition retrieve_attachment_as_native (a : Attachment.t) : Response :=
  with_type 200
    match Attachment.code a with
    | Some code => get_content_type (Attachment.type a) code
    | None => Attachment.type a
    end
    (BodyBytes (Attachment.data a)).

Definition retrieve_attachment_as_json (mail_id : string)
    (a : Z * Attachment.t) : Response :=
  with_type 200 "application/json"
    (BodyAttachment (Resource.Attachment_model_validate mail_id a)).

Definition retrieve_attachment_as_byte (a : Attachment.t) : Response :=
  with_type 200 "application/octet-stream" (BodyBytes (Attachment.data a)).

(** The select of [retrieve_attachment]: [dispatch] of the consumer joined
    to [mail] with this id, joined to [attachment] with this number. *)
Definition attachment_select (db : Database) (consumer : Z)
    (mail_id : string) (number : Z) : list (string * Z * Attachment.t) :=
  omap (λ m, (λ a, (fst m, number, a)) <$> attachment db !! (fst m, number))
       (filter_by_id mail_id (Mail_consumer_select db consumer)).

Definition retrieve_attachment (db : Database) (request : Request)
    (consumer : Z) (mail_id : string) (number : Z) : View :=
  attachment ← one_or_none (attachment_select db consumer mail_id number);
  match attachment with
  | None => mret Not_Found
  | Some (id, number, a) =>
    let mime :=
      [Attachment.type a; "application/json"]
      ++ (if startswith (Attachment.type a) "text/"
          then ["text/plain"] else [])
      ++ ["application/octet-stream"] in
    let mimetype := negotiate request mime in
    if bool_decide (mimetype = Some (Attachment.type a))
    then inr (retrieve_attachment_as_native a)
    else if bool_decide (mimetype = Some "text/plain")
    then inr (retrieve_attachment_as_text a)
    else if bool_decide (mimetype = Some "application/json")
    then inr (retrieve_attachment_as_json id (number, a))
    else if bool_decide (mimetype = Some "application/octet-stream")
    then inr (retrieve_attachment_as_byte a)
    else inr Not_Acceptable
  end.

End Handlers.

(** *** The delivery engine: [GET /mail] *)

(** What the generator of [stream_mail] does that can be observed: it
    commits, taking the store from [before] to [after] in a transaction whose
    [now()] is [now]; it rolls back; it yields a line; it raises. *)
Inductive Event :=
| Committed (now : Z) (before after : Database)
| RolledBack
| Yielded (resource : Resource.Mail)
| Raised (e : Exception).

(** What resumes the generator or happens around it: the wall clock read by
    the next statement of the drain loop; a notification with the clock at
    its select and at its update; the end of the notification iterator; a
    commit of some other session; the client going away. *)
Inductive Input :=
| Tick (clock : Z)
| Notify (payload : string) (clock_select clock_update : Z)
| NotifyEnd
| Other (db : Database)
| Disconnect.

Inductive Phase := Draining | Waiting | Closed.

(** The [Session] of the generator: the committed store it reads, and the
    [now()] of its open transaction if it has one. *)
Record Session := {
  store : Database;
  transaction : option Z
}.

Record Stream := {
  phase : Phase;
  session : Session
}.

(** The [now()] a statement sees: that of the open transaction, or the clock
    when the statement begins one. *)
Definition transaction_now (s : Session) (clock : Z) : Z :=
  default clock (transaction s).

(** The flush of [dispatch.last_time = now(); dispatch.next_time = now() +
    1h]: an [UPDATE] addressed by the primary key of the loaded row. *)
Definition flush_advance (now : Z) (d : Dispatch.t) (db : Database)
  : Database :=
  with_dispatch db
    ((λ r, if decide (Dispatch.key r = Dispatch.key d)
           then Dispatch_advance now r else r) <$> dispatch db).

Section Delivery.

Variable best_match : Accept → list string → option string.
Variable PARSER_parsebytes : bytes → Message.
Variable unquote : string → string.
Variable str_strip : string → string.
Variable str_split : string → list string.

Local Abbreviation load_mail_resource :=
  (load_mail_resource PARSER_parsebytes unquote str_strip str_split).
Local Abbreviation negotiate := (negotiate best_match).

(** The CTE [dispatch_update]: every due row of the consumer is advanced;
    [RETURNING] gives the rows as the update left them. *)
Definition dispatch_update (db : Database) (consumer now : Z)
  : list Dispatch.t * Database :=
  (Dispatch_advance now <$> filter (due consumer now) (dispatch db),
   with_dispatch db
     ((λ d, if decide (due consumer now d)
            then Dispatch_advance now d else d) <$> dispatch db)).

(** [Mail] with [selectinload(Mail.attachments)] or
    [joinedload(Mail.attachments)]. *)
Definition load_mail (db : Database) (m : string * Mail.t) : MailObject :=
  {| mail_object_id := fst m;
     mail_object_row := snd m;
     mail_object_attachments := Mail_attachments db (fst m) |}.

Definition select_mail_as_json (db : Database) (consumer now : Z)
  : Response * Database :=
  let '(returning, db') := dispatch_update db consumer now in
  let stmt :=
    order_by (λ r, Dispatch.next_time (fst r))
      (omap (λ d, (λ m, (d, m)) <$> Dispatch_mail db' d) returning) in
  let result := (λ r, load_mail_resource (load_mail db' (snd r))) <$> stmt in
  ({| status := 200; content_type := Some "application/json";
      www_authenticate := None; body := BodyMails result |},
   db').

Definition select_mail (db : Database) (request : Request)
    (consumer now : Z) : Response * Database :=
  let mime := ["application/json"; "application/x-ndjson"] in
  let mimetype := negotiate request mime in
  if bool_decide (mimetype = Some "application/json")
  then select_mail_as_json db consumer now
  else if bool_decide (mimetype = Some "application/x-ndjson")
  then ({| status := 200; content_type := Some "application/x-ndjson";
           www_authenticate := None; body := BodyStream |}, db)
  else (Not_Acceptable, db).

(** [dispatch_select]: the due rows of the consumer. *)
Definition dispatch_select (db : Database) (consumer_id now : Z)
  : list Dispatch.t :=
  filter (due consumer_id now) (dispatch db).

(** Lines 353-359 and 373-379: advance the claimed row, build the resource
    from [dispatch.mail], commit, yield.  A dispatch without its mail makes
    [load_mail_resource] raise before the commit. *)
Definition deliver (db : Database) (now : Z) (d : Dispatch.t)
    (next : Phase) : Stream * list Event :=
  let db' := flush_advance now d db in
  match Dispatch_mail db' d with
  | None =>
    ({| phase := Closed;
        session := {| store := db; transaction := None |} |},
     [Raised AttributeError])
  | Some m =>
    let resource := load_mail_resource (load_mail db' m) in
    ({| phase := next;
        session := {| store := db'; transaction := None |} |},
     [Committed now db db'; Yielded resource])
  end.

(** One resumption of the generator of [stream_mail]. *)
Definition stream_mail (consumer_id : Z) (s : Stream) (i : Input)
  : Stream * list Event :=
  let db := store (session s) in
  match phase s, i with
  | Closed, _ => (s, [])
  | _, Disconnect =>
    ({| phase := Closed;
        session := {| store := db; transaction := None |} |},
     [])
  | _, Other db' =>
    ({| phase := phase s;
        session := {| store := db';
                      transaction := transaction (session s) |} |},
     [])
  | Draining, Tick clock =>
    let now := transaction_now (session s) clock in
    let stmt :=
      take 1 (order_by Dispatch.next_time
                (dispatch_select db consumer_id now)) in
    match scalar stmt with
    | Some dispatch => deliver db now dispatch Draining
    | None =>
      ({| phase := Waiting;
          session := {| store := db; transaction := None |} |},
       [RolledBack])
    end
  | Waiting, Notify payload clock_select clock_update =>
    let now := transaction_now (session s) clock_select in
    let stmt :=
      filter (λ d, Dispatch.mail_id d = payload)
             (dispatch_select db consumer_id now) in
    match scalar stmt with
    | None =>
      ({| phase := Waiting;
          session := {| store := db; transaction := Some now |} |},
       [])
    | Some dispatch =>
      let '(s', events) := deliver db clock_update dispatch Waiting in
      (s', RolledBack :: events)
    end
  | Waiting, NotifyEnd =>
    ({| phase := Draining; session := session s |}, [])
  | _, _ => (s, [])
  end.

(** The generator driven through a list of inputs. *)
Fixpoint stream_mail_run (consumer_id : Z) (s : Stream)
    (inputs : list Input) : Stream * list Event :=
  match inputs with
  | [] => (s, [])
  | i :: inputs' =>
    let '(s', events) := stream_mail consumer_id s i in
    let '(s'', events') := stream_mail_run consumer_id s' inputs' in
    (s'', events ++ events')
  end.

(** The generator as [select_mail] creates it. *)
Definition stream_mail_open (db : Database) : Stream :=
  {| phase := Draining;
     session := {| store := db; transaction := None |} |}.

End Delivery.

(** ** Vocabulary of the properties *)

(** The mail resources a response carries. *)
Definition delivered (r : Response) : list Resource.Mail :=
  match body r with
  | BodyMail m => [m]
  | BodyMails l => l
  | _ => []
  end.

(** The [now()] of the transaction in which a resumption advances the row
    it delivers. *)
Definition delivery_instant (s : Stream) (i : Input) : Z :=
  match i with
  | Tick clock => transaction_now (session s) clock
  | Notify _ _ clock_update => clock_update
  | _ => 0
  end.

(** Events that neither commit nor yield. *)
Definition quiet (events : list Event) : Prop :=
  Forall (λ e, match e with
               | RolledBack | Raised _ => True
               | _ => False
               end) events.

(** The store goes from [before] to [after] by the advance, at [now], of the
    rows of one key, which [before] has. *)
Definition single_advance (consumer_id : Z) (id : string) (now : Z)
    (before after : Database) : Prop :=
  mail after = mail before
  ∧ attachment after = attachment before
  ∧ consumer after = consumer before
  ∧ has_dispatch before consumer_id id
  ∧ dispatch after
    = (λ d, if decide (Dispatch.key d = (consumer_id, id))
            then Dispatch_advance now d else d) <$> dispatch before.

(** A trace in which commits and yields only come in pairs: the commit of a
    single advance, then the yield of the resource of that mail. *)
Inductive paired (consumer_id : Z) : list Event → Prop :=
| paired_nil : paired consumer_id []
| paired_quiet e t :
    quiet [e] → paired consumer_id t → paired consumer_id (e :: t)
| paired_delivery now before after r t :
    single_advance consumer_id (Resource.id r) now before after →
    paired consumer_id t →
    paired consumer_id (Committed now before after :: Yielded r :: t).

Definition is_commit (e : Event) : bool :=
  match e with Committed _ _ _ => true | _ => false end.

Definition is_yield (e : Event) : bool :=
  match e with Yielded _ => true | _ => false end.

Definition count (p : Event → bool) (t : list Event) : nat :=
  length (filter (λ e, p e = true) t).

(** The [next_time] the consumer's dispatch for a mail has in a store. *)
Definition scheduled (db : Database) (consumer_id : Z) (id : string)
  : option Z :=
  Dispatch.next_time
    <$> head (filter (λ d, Dispatch.key d = (consumer_id, id)) (dispatch db)).

(** The language of the pattern: [consumer_id=], one or more of [0-9], and
    the end of the string or a newline that ends it. *)
Definition all_digits (s : string) : Prop :=
  Forall (λ a, is_digit a = true) (list_ascii_of_string s).

Definition newline : string := String (ascii_of_nat 10) EmptyString.

Definition matches_consumer_id (sub digits : string) : Prop :=
  digits ≠ EmptyString
  ∧ all_digits digits
  ∧ (sub = String.append "consumer_id=" digits
     ∨ sub = String.append "consumer_id=" (String.append digits newline)).


(** [str(n)] for a non-negative integer: its decimal digits. *)
Definition str_of_N (n : N) : string :=
  NilEmpty.string_of_uint (N.to_uint n).

(** [db'] differs from [db] at most in the schedule columns of [dispatch]:
    the other tables are the same and the dispatch rows carry, in the same
    order, the same keys. *)
Definition reschedules (db db' : Database) : Prop :=
  mail db' = mail db
  ∧ attachment db' = attachment db
  ∧ consumer db' = consumer db
  ∧ Dispatch.key <$> dispatch db' = Dispatch.key <$> dispatch db.

(** An input that is not the commit of another session. *)
Definition own_input (i : Input) : Prop :=
  match i with Other _ => False | _ => True end.


(** ** Sample library behaviour and data for the closed examples *)

(** The part of Python's codec registry the examples below go through.
    [unknown-8bit] is a charset label of RFC 1428 that libmagic also reports;
    Python has no codec of that name. *)
Definition sample_codecs (encoding : string) : option Codec.t :=
  if decide (encoding = "utf-8") then Some Codec.utf8
  else if decide (encoding = "us-ascii") then Some Codec.ascii
  else if decide (encoding = "iso-8859-1") then Some Codec.latin_1
  else None.

(** No Accept value offered by the view is ever matched. *)
Definition no_match (_ : Accept) (_ : list string) : option string := None.

(** The first offered type that the Accept header names literally. *)
Definition literal_match (accept : Accept) (matches : list string)
  : option string :=
  head (filter (λ m, m ∈ fst <$> accept) matches).

(** [get_content_type] for the types of the examples: a [text/] type gets
    its charset parameter. *)
Definition sample_content_type (mimetype charset : string) : string :=
  if startswith mimetype "text/"
  then mimetype ++ "; charset=" ++ charset
  else mimetype.

Definition no_headers : Message :=
  {| Message_ID := None; Date := None; From := None; Sender := None;
     Reply_To := None; To := None; Cc := None; Bcc := None;
     In_Reply_To := None; References := None; Subject := None |}.

Definition sample_parsebytes (_ : bytes) : Message := no_headers.

Definition sample_split (s : string) : list string := [s].

Definition sample_bytes (s : string) : bytes := String.list_byte_of_string s.

Definition sample_mail (subject : string) : Mail.t :=
  {| Mail.date := 1718020800000000;
     Mail.text := "This is some *sample* text";
     Mail.data := sample_bytes ("Subject: " ++ subject) |}.

Definition sample_dispatch (consumer_id : Z) (mail_id : string)
    (next_time : Z) : Dispatch.t :=
  {| Dispatch.consumer_id := consumer_id;
     Dispatch.mail_id := mail_id;
     Dispatch.last_time := None;
     Dispatch.next_time := next_time;
     Dispatch.created_at := next_time |}.

(** Three mails, one of them with an attachment; consumer 1 has a dispatch
    for [second] and one for [first], inserted in that order, and consumer 2
    has one for [first]; nobody has one for [third]. *)
Definition sample_db : Database :=
  {| mail :=
       <["first" := sample_mail "first"]>
         (<["second" := sample_mail "second"]>
            (<["third" := sample_mail "third"]> ∅));
     attachment :=
       <[("first", 4) :=
           {| Attachment.name := Some "test-attachment.txt";
              Attachment.type := "text/plain";
              Attachment.code := Some "utf-8";
              Attachment.data := sample_bytes "hello" |}]> ∅;
     consumer :=
       <[1 := {| Consumer.name := "test-consumer" |}]>
         (<[2 := {| Consumer.name := "other-consumer" |}]> ∅);
     dispatch :=
       [sample_dispatch 1 "second" 200;
        sample_dispatch 1 "first" 100;
        sample_dispatch 2 "first" 150] |}.

Definition sample_request (accept : Accept) : Request :=
  {| routing_exception := false;
     authorization := None;
     host := "localhost";
     accept_mimetypes := accept |}.

Definition sample_resource (mail_id : string) : Resource.Mail :=
  load_mail_resource sample_parsebytes (λ s, s) (λ s, s) sample_split
    (load_mail sample_db (mail_id, sample_mail mail_id)).

(** A run of the generator for consumer 1 over the sample store: two lines
    are drained, the drain finds nothing more, the wait times out and the
    next drain is empty. *)
Definition sample_run : Stream * list Event :=
  stream_mail_run sample_parsebytes (λ s, s) (λ s, s) sample_split 1
    (stream_mail_open sample_db)
    [Tick 1000; Tick 1001; Tick 1002; NotifyEnd; Tick 1003].

(** A stand-in for [jwt.decode] with the server secret: the tokens of the
    authentication tests, by name. *)
Definition sample_jwt_decode (token secret : string)
  : InvalidTokenError + gmap string string :=
  if decide (secret = "test-secret") then
    if decide (token = "consumer-1") then inr {["sub" := "consumer_id=1"]}
    else if decide (token = "consumer-0") then inr {["sub" := "consumer_id=0"]}
    else if decide (token = "sub-id-1") then inr {["sub" := "id=1"]}
    else if decide (token = "no-sub") then inl (MissingRequiredClaimError "sub")
    else if decide (token = "hs384") then inl InvalidAlgorithmError
    else if decide (token = "other-secret") then inl InvalidSignatureError
    else inl DecodeError
  else inl InvalidSignatureError.

(** A request for a path that no route matches, without credentials. *)
Definition unrouted_request : Request :=
  {| routing_exception := true;
     authorization := None;
     host := "localhost";
     accept_mimetypes := [] |}.

Definition bearer_request (token : option string) : Request :=
  {| routing_exception := false;
     authorization :=
       Some {| authorization_type := "bearer";
               authorization_token := token |};
     host := "localhost";
     accept_mimetypes := [] |}.

(** libmagic and the header parser for parts that are never sniffed. *)
Definition sample_magic (_ : Payload) : MagicResult := MagicEstimate None.

Definition sample_header (estimate : string) : string * option string :=
  (estimate, None).

Definition sample_message : Message :=
  {| Message_ID := Some "<12b13e25-5ee2-471c-b78c-e3178668864d@kaimel.io>";
     Date := Some 1718020800000000;
     From := None; Sender := None; Reply_To := None; To := None; Cc := None;
     Bcc := None; In_Reply_To := None; References := None; Subject := None |}.

(** An HTML part declared as ISO 8859-1 whose body is the one byte E9, the
    letter e with an acute accent. *)
Definition latin_1_part : Part :=
  {| part_number := 0;
     part_name := "attachment.html";
     part_type := "text/html";
     part_code := Some "iso-8859-1";
     part_data := PBytes [xe9] |}.

(** An HTML part declared with the charset label [unknown-8bit]. *)
Definition unknown_8bit_part : Part :=
  {| part_number := 0;
     part_name := "attachment.html";
     part_type := "text/html";
     part_code := Some "unknown-8bit";
     part_data := PBytes [x68; x69] |}.

(** The sample store with one more attachment of the first mail, whose
    type is [application/json]. *)
Definition sample_json_db : Database :=
  {| mail := mail sample_db;
     attachment :=
       <[("first", 5) :=
           {| Attachment.name := Some "data.json";
              Attachment.type := "application/json";
              Attachment.code := None;
              Attachment.data := sample_bytes "{}" |}]> (attachment sample_db);
     consumer := consumer sample_db;
     dispatch := dispatch sample_db |}.

(** The generator over the sample store, waiting for notifications with no
    transaction open. *)
Definition sample_waiting : Stream :=
  {| phase := Waiting;
     session := {| store := sample_db; transaction := None |} |}.

(** A plain-text part declared as UTF-8, and one whose bytes are not
    UTF-8. *)
Definition utf8_part : Part :=
  {| part_number := 4;
     part_name := "test-attachment.txt";
     part_type := "text/x-diff";
     part_code := Some "utf-8";
     part_data := PBytes (sample_bytes "hello") |}.

Definition broken_utf8_part : Part :=
  {| part_number := 5;
     part_name := "broken.txt";
     part_type := "text/x-diff";
     part_code := Some "utf-8";
     part_data := PBytes [xff] |}.

(** * Properties *)

(** ** The codecs *)

Ltac lia_div := zify; Z.to_euclidean_division_equations; lia.

Lemma byte_of_to_N b : Codec.byte_of (Byte.to_N b) = b.
Proof. unfold Codec.byte_of. by rewrite Byte.of_to_N. Qed.

Lemma to_N_byte_of n : (n < 256)%N → Byte.to_N (Codec.byte_of n) = n.
Proof.
  intros Hn. unfold Codec.byte_of.
  destruct (Byte.of_N n) as [b|] eqn:E.
  - by apply Byte.to_of_N.
  - apply Byte.of_N_None_iff in E. lia.
Qed.

Lemma between_spec lo n hi :
  Codec.between lo n hi = true ↔ (lo ≤ n ∧ n ≤ hi)%N.
Proof.
  unfold Codec.between. rewrite andb_true_iff, !N.leb_le. done.
Qed.

Lemma between_false lo n hi :
  Codec.between lo n hi = false ↔ (n < lo ∨ hi < n)%N.
Proof.
  unfold Codec.between. rewrite andb_false_iff, !N.leb_gt. done.
Qed.

Lemma continuation_spec n :
  Codec.continuation n = true ↔ (128 ≤ n ∧ n ≤ 191)%N.
Proof. apply between_spec. Qed.

Lemma encode_char_1 n0 :
  (n0 <? 128)%N = true →
  Codec.utf8_encode_char n0 = Some [Codec.byte_of n0].
Proof. intros H. unfold Codec.utf8_encode_char. by rewrite H. Qed.

Lemma encode_char_2 n0 n1 :
  Codec.between 194 n0 223 = true →
  Codec.continuation n1 = true →
  Codec.utf8_encode_char ((n0 - 192) * 64 + (n1 - 128))
  = Some [Codec.byte_of n0; Codec.byte_of n1].
Proof.
  rewrite between_spec, continuation_spec. intros H0 H1.
  unfold Codec.utf8_encode_char.
  rewrite (proj2 (N.ltb_ge _ _)) by lia.
  rewrite (proj2 (N.ltb_lt _ _)) by lia.
  f_equal. f_equal; [|f_equal]; f_equal; lia_div.
Qed.

Lemma encode_char_3 n0 n1 n2 :
  Codec.between 224 n0 239 = true →
  Codec.between (if (n0 =? 224)%N then 160%N else 128%N) n1
    (if (n0 =? 237)%N then 159%N else 191%N) = true →
  Codec.continuation n2 = true →
  Codec.utf8_encode_char ((n0 - 224) * 4096 + (n1 - 128) * 64 + (n2 - 128))
  = Some [Codec.byte_of n0; Codec.byte_of n1; Codec.byte_of n2].
Proof.
  rewrite !between_spec, continuation_spec. intros H0 H1 H2.
  assert (Hlo : (n0 = 224 → 160 ≤ n1)%N).
  { intros ->. by destruct H1. }
  assert (Hhi : (n0 = 237 → n1 ≤ 159)%N).
  { intros ->. by destruct H1. }
  assert (Hn1 : (128 ≤ n1 ≤ 191)%N).
  { destruct (n0 =? 224)%N, (n0 =? 237)%N; lia. }
  clear H1. unfold Codec.utf8_encode_char.
  rewrite (proj2 (N.ltb_ge _ 128)) by lia.
  rewrite (proj2 (N.ltb_ge _ 2048)) by lia.
  rewrite (proj2 (N.ltb_lt _ 65536)) by lia.
  rewrite (proj2 (between_false _ _ _)) by lia.
  f_equal. f_equal; [|f_equal; [|f_equal]]; f_equal; lia_div.
Qed.

Lemma encode_char_4 n0 n1 n2 n3 :
  Codec.between 240 n0 244 = true →
  Codec.between (if (n0 =? 240)%N then 144%N else 128%N) n1
    (if (n0 =? 244)%N then 143%N else 191%N) = true →
  Codec.continuation n2 = true →
  Codec.continuation n3 = true →
  Codec.utf8_encode_char
    ((n0 - 240) * 262144 + (n1 - 128) * 4096 + (n2 - 128) * 64 + (n3 - 128))
  = Some [Codec.byte_of n0; Codec.byte_of n1; Codec.byte_of n2;
          Codec.byte_of n3].
Proof.
  rewrite !between_spec, !continuation_spec. intros H0 H1 H2 H3.
  assert (Hlo : (n0 = 240 → 144 ≤ n1)%N).
  { intros ->. by destruct H1. }
  assert (Hhi : (n0 = 244 → n1 ≤ 143)%N).
  { intros ->. by destruct H1. }
  assert (Hn1 : (128 ≤ n1 ≤ 191)%N).
  { destruct (n0 =? 240)%N, (n0 =? 244)%N; lia. }
  clear H1. unfold Codec.utf8_encode_char.
  rewrite (proj2 (N.ltb_ge _ 128)) by lia.
  rewrite (proj2 (N.ltb_ge _ 2048)) by lia.
  rewrite (proj2 (N.ltb_ge _ 65536)) by lia.
  rewrite (proj2 (N.ltb_lt _ 1114112)) by lia.
  f_equal. f_equal; [|f_equal; [|f_equal; [|f_equal]]]; f_equal; lia_div.
Qed.

(** What the decoder accepts is what the encoder produces. *)
Lemma utf8_decode_encode bs :
  ∀ s, Codec.utf8_decode bs = Some s → Codec.utf8_encode s = Some bs.
Proof.
  induction bs as [bs IH] using (induction_ltof1 _ (@length byte)).
  unfold ltof in IH. destruct bs as [|b0 r0]; intros s.
  { by intros [= <-]. }
  simpl.
  destruct (Byte.to_N b0 <? 128)%N eqn:H1.
  { destruct (Codec.utf8_decode r0) as [s'|] eqn:E; [|done].
    intros [= <-]. simpl. rewrite (encode_char_1 _ H1).
    rewrite (IH r0) with (s := s') by (simpl; lia || done).
    by rewrite byte_of_to_N. }
  destruct (Codec.between 194 (Byte.to_N b0) 223) eqn:H2.
  { destruct r0 as [|b1 r1]; [done|].
    destruct (Codec.continuation (Byte.to_N b1)) eqn:C1; [|done].
    destruct (Codec.utf8_decode r1) as [s'|] eqn:E; [|done].
    intros [= <-]. simpl. rewrite (encode_char_2 _ _ H2 C1).
    rewrite (IH r1) with (s := s') by (simpl; lia || done).
    by rewrite !byte_of_to_N. }
  destruct (Codec.between 224 (Byte.to_N b0) 239) eqn:H3.
  { destruct r0 as [|b1 [|b2 r2]]; [done..|].
    destruct (Codec.between _ (Byte.to_N b1) _) eqn:C1; [|done].
    destruct (Codec.continuation (Byte.to_N b2)) eqn:C2; [|done].
    simpl.
    destruct (Codec.utf8_decode r2) as [s'|] eqn:E; [|done].
    intros [= <-]. simpl. rewrite (encode_char_3 _ _ _ H3 C1 C2).
    rewrite (IH r2) with (s := s') by (simpl; lia || done).
    by rewrite !byte_of_to_N. }
  destruct (Codec.between 240 (Byte.to_N b0) 244) eqn:H4; [|done].
  destruct r0 as [|b1 [|b2 [|b3 r3]]]; [done..|].
  destruct (Codec.between _ (Byte.to_N b1) _) eqn:C1; [|done].
  destruct (Codec.continuation (Byte.to_N b2)) eqn:C2; [|done].
  destruct (Codec.continuation (Byte.to_N b3)) eqn:C3; [|done].
  simpl.
  destruct (Codec.utf8_decode r3) as [s'|] eqn:E; [|done].
  intros [= <-]. simpl. rewrite (encode_char_4 _ _ _ _ H4 C1 C2 C3).
  rewrite (IH r3) with (s := s') by (simpl; lia || done).
  by rewrite !byte_of_to_N.
Qed.

Lemma between_true lo n hi :
  (lo ≤ n ∧ n ≤ hi)%N → Codec.between lo n hi = true.
Proof. apply between_spec. Qed.

Lemma decode_char c b rest :
  Codec.utf8_encode_char c = Some b →
  Codec.utf8_decode (b ++ rest) = cons c <$> Codec.utf8_decode rest.
Proof.
  unfold Codec.utf8_encode_char.
  destruct (c <? 128)%N eqn:H1.
  { intros [= <-]. simpl. apply N.ltb_lt in H1.
    rewrite to_N_byte_of by lia. by rewrite (proj2 (N.ltb_lt _ _)) by lia. }
  apply N.ltb_ge in H1.
  destruct (c <? 2048)%N eqn:H2.
  { intros [= <-]. apply N.ltb_lt in H2. simpl.
    rewrite !to_N_byte_of by lia_div.
    rewrite (proj2 (N.ltb_ge _ 128)) by lia_div.
    rewrite (between_true 194) by lia_div.
    unfold Codec.continuation. rewrite (between_true 128) by lia_div.
    do 2 f_equal. lia_div. }
  apply N.ltb_ge in H2.
  destruct (c <? 65536)%N eqn:H3.
  { destruct (Codec.between 55296 c 57343) eqn:Hs; [done|].
    apply between_false in Hs.
    intros [= <-]. apply N.ltb_lt in H3. simpl.
    rewrite !to_N_byte_of by lia_div.
    rewrite (proj2 (N.ltb_ge _ 128)) by lia_div.
    rewrite (proj2 (between_false 194 _ 223)) by lia_div.
    rewrite (between_true 224) by lia_div.
    unfold Codec.continuation. rewrite (between_true 128 _ 191) by lia_div.
    assert (Codec.between
              (if (224 + c `div` 4096 =? 224)%N then 160%N else 128%N)
              (128 + (c `div` 64) `mod` 64)
              (if (224 + c `div` 4096 =? 237)%N then 159%N else 191%N)
            = true) as ->.
    { apply between_true.
      destruct (N.eqb_spec (224 + c `div` 4096) 224);
        destruct (N.eqb_spec (224 + c `div` 4096) 237); lia_div. }
    simpl. do 2 f_equal. lia_div. }
  apply N.ltb_ge in H3.
  destruct (c <? 1114112)%N eqn:H4; [|done].
  intros [= <-]. apply N.ltb_lt in H4. simpl.
  rewrite !to_N_byte_of by lia_div.
  rewrite (proj2 (N.ltb_ge _ 128)) by lia_div.
  rewrite (proj2 (between_false 194 _ 223)) by lia_div.
  rewrite (proj2 (between_false 224 _ 239)) by lia_div.
  rewrite (between_true 240) by lia_div.
  unfold Codec.continuation. rewrite !(between_true 128 _ 191) by lia_div.
  assert (Codec.between
            (if (240 + c `div` 262144 =? 240)%N then 144%N else 128%N)
            (128 + (c `div` 4096) `mod` 64)
            (if (240 + c `div` 262144 =? 244)%N then 143%N else 191%N)
          = true) as ->.
  { apply between_true.
    destruct (N.eqb_spec (240 + c `div` 262144) 240);
      destruct (N.eqb_spec (240 + c `div` 262144) 244); lia_div. }
  simpl. do 2 f_equal. lia_div.
Qed.

(** What the encoder produces, the decoder reads back. *)
Lemma utf8_encode_decode s :
  ∀ bs, Codec.utf8_encode s = Some bs → Codec.utf8_decode bs = Some s.
Proof.
  induction s as [|c s IH]; intros bs; simpl.
  { by intros [= <-]. }
  destruct (Codec.utf8_encode_char c) as [b|] eqn:Ec; [|done].
  destruct (Codec.utf8_encode s) as [bs'|] eqn:Es; [|done].
  intros [= <-]. rewrite (decode_char _ _ _ Ec). by rewrite (IH bs').
Qed.

(** A single-byte codec gives back the bytes it decoded. *)
Lemma single_decode_encode limit bs :
  (limit ≤ 256)%N →
  ∀ s, Codec.single_decode limit bs = Some s →
       Codec.single_encode limit s = Some bs.
Proof.
  intros Hl. induction bs as [|b bs IH]; intros s; simpl.
  { by intros [= <-]. }
  destruct (Byte.to_N b <? limit)%N eqn:Hb; [|done].
  destruct (Codec.single_decode limit bs) as [s'|]; [|done].
  intros [= <-]. simpl. rewrite Hb, (IH s') by done. simpl.
  by rewrite byte_of_to_N.
Qed.

(** ** The consumer's select *)

Lemma consumer_select_elem db consumer id m :
  (id, m) ∈ Mail_consumer_select db consumer ↔
  has_dispatch db consumer id ∧ mail db !! id = Some m.
Proof.
  unfold Mail_consumer_select, has_dispatch, Dispatch_mail, Dispatch.key.
  rewrite list_elem_of_omap, Exists_exists. split.
  - intros (d & Hd & Hm). apply list_elem_of_filter in Hd as [Hc Hd].
    destruct (mail db !! Dispatch.mail_id d) as [m'|] eqn:E; simplify_eq/=.
    split; [by exists d|done].
  - intros [(d & Hd & Hk) Hm]. simplify_eq. exists d. split.
    + by apply list_elem_of_filter.
    + by rewrite Hm.
Qed.

Lemma filter_by_id_elem id id' m rows :
  (id', m) ∈ filter_by_id id rows ↔ id' = id ∧ (id', m) ∈ rows.
Proof. unfold filter_by_id. by rewrite list_elem_of_filter. Qed.

Lemma select_without_dispatch db consumer id :
  ¬ has_dispatch db consumer id →
  filter_by_id id (Mail_consumer_select db consumer) = [].
Proof.
  intros Hno. apply elem_of_nil_inv. intros [id' m] Hin.
  apply filter_by_id_elem in Hin as [-> Hin].
  apply consumer_select_elem in Hin as [Hd _]. done.
Qed.

Lemma select_nonempty_dispatch db consumer id :
  filter_by_id id (Mail_consumer_select db consumer) ≠ [] →
  has_dispatch db consumer id.
Proof.
  intros Hne. destruct (filter_by_id _ _) as [|[id' m] l] eqn:E; [done|].
  assert (Hin : (id', m) ∈ filter_by_id id (Mail_consumer_select db consumer))
    by (rewrite E; left).
  apply filter_by_id_elem in Hin as [-> Hin].
  by apply consumer_select_elem in Hin as [Hd _].
Qed.

(** ** [ORDER BY] *)

Lemma order_insert_perm {A} (key : A → Z) x l :
  order_insert key x l ≡ₚ x :: l.
Proof.
  induction l as [|y l IH]; simpl; [done|].
  destruct (key x <=? key y); [done|].
  rewrite IH. apply Permutation_swap.
Qed.

Lemma order_by_perm {A} (key : A → Z) l : order_by key l ≡ₚ l.
Proof.
  induction l as [|x l IH]; simpl; [done|].
  by rewrite order_insert_perm, IH.
Qed.

Lemma order_by_elem {A} (key : A → Z) l x : x ∈ order_by key l ↔ x ∈ l.
Proof. by rewrite order_by_perm. Qed.

(** ** Reads without a dispatch *)

Section Reads.

Variable best_match : Accept → list string → option string.
Variable get_content_type : string → string → string.
Variable PARSER_parsebytes : bytes → Message.
Variable unquote : string → string.
Variable str_strip : string → string.
Variable str_split : string → list string.

Lemma retrieve_mail_without_dispatch db request consumer id :
  ¬ has_dispatch db consumer id →
  retrieve_mail best_match get_content_type PARSER_parsebytes unquote
    str_strip str_split db request consumer id = inr Not_Found.
Proof.
  intros Hno. unfold retrieve_mail, retrieve_mail_as_text,
    retrieve_mail_as_json.
  rewrite (select_without_dispatch _ _ _ Hno). simpl.
  destruct (negotiate _ _ _) as [m|]; [|done].
  destruct (_ || _); [done|]. by destruct (bool_decide _).
Qed.


Lemma dispatch_update_returning db consumer now d :
  d ∈ (dispatch_update db consumer now).1 →
  ∃ d0, d0 ∈ dispatch db ∧ due consumer now d0 ∧ d = Dispatch_advance now d0.
Proof.
  unfold dispatch_update. simpl. rewrite list_elem_of_fmap.
  intros (d0 & -> & Hd0). apply list_elem_of_filter in Hd0 as [Hdue Hin].
  eauto.
Qed.

Lemma select_mail_as_json_delivered db consumer now r :
  r ∈ delivered (select_mail_as_json PARSER_parsebytes unquote str_strip
                   str_split db consumer now).1 →
  ∃ d0, d0 ∈ dispatch db ∧ due consumer now d0
        ∧ Resource.id r = Dispatch.mail_id d0.
Proof.
  unfold select_mail_as_json, delivered.
  destruct (dispatch_update db consumer now) as [returning db'] eqn:E.
  simpl. rewrite list_elem_of_fmap. intros ([d m] & -> & Hin).
  apply order_by_elem in Hin. apply list_elem_of_omap in Hin as (d' & Hd' & Hm).
  unfold Dispatch_mail in Hm.
  destruct (mail db' !! Dispatch.mail_id d') as [row|]; simplify_eq/=.
  assert (Hret : d ∈ (dispatch_update db consumer now).1) by by rewrite E.
  apply dispatch_update_returning in Hret as (d0 & Hin0 & Hdue & ->).
  exists d0. done.
Qed.

Lemma select_mail_delivered db request consumer now r :
  r ∈ delivered (select_mail best_match PARSER_parsebytes unquote str_strip
                   str_split db request consumer now).1 →
  ∃ d0, d0 ∈ dispatch db ∧ due consumer now d0
        ∧ Resource.id r = Dispatch.mail_id d0.
Proof.
  unfold select_mail. destruct (bool_decide _).
  - apply select_mail_as_json_delivered.
  - destruct (bool_decide _); simpl; by intros ?%elem_of_nil.
Qed.

End Reads.

(** ** One resumption of the stream *)

Section Resumption.

Variable PARSER_parsebytes : bytes → Message.
Variable unquote : string → string.
Variable str_strip : string → string.
Variable str_split : string → list string.

Local Abbreviation stream_mail :=
  (stream_mail PARSER_parsebytes unquote str_strip str_split).
Local Abbreviation deliver :=
  (deliver PARSER_parsebytes unquote str_strip str_split).

Lemma scalar_elem {A} (l : list A) x : scalar l = Some x → x ∈ l.
Proof. destruct l; intros; simplify_eq/=. left. Qed.

Lemma take_1_elem {A} (l : list A) x : x ∈ take 1 l → x ∈ l.
Proof.
  destruct l as [|y l]; simpl; [done|]. rewrite take_0.
  intros ->%list_elem_of_singleton. left.
Qed.

Lemma flush_advance_mail now d db :
  mail (flush_advance now d db) = mail db.
Proof. done. Qed.

Lemma deliver_cases db now d next s' events :
  deliver db now d next = (s', events) →
  events = [Raised AttributeError]
  ∨ ∃ r, Resource.id r = Dispatch.mail_id d
         ∧ events = [Committed now db (flush_advance now d db); Yielded r]
         ∧ store (session s') = flush_advance now d db.
Proof.
  unfold deliver, Dispatch_mail. rewrite flush_advance_mail.
  destruct (mail db !! Dispatch.mail_id d) as [row|]; simpl;
    intros; simplify_eq; [right|by left].
  eexists. split; [|split; reflexivity]. reflexivity.
Qed.

(** A resumption is quiet, or it delivers one due dispatch of the
    consumer: it commits the advance of that row and then yields. *)
Lemma stream_mail_cases consumer s i s' events :
  stream_mail consumer s i = (s', events) →
  quiet events
  ∨ ∃ d r pre,
      quiet pre
      ∧ d ∈ dispatch (store (session s))
      ∧ Dispatch.key d = (consumer, Resource.id r)
      ∧ events =
          pre ++ [Committed (delivery_instant s i) (store (session s))
                    (flush_advance (delivery_instant s i) d
                       (store (session s)));
                  Yielded r]
      ∧ store (session s') =
          flush_advance (delivery_instant s i) d (store (session s)).
Proof.
  unfold stream_mail.
  destruct (phase s) eqn:Hp, i as [clock|payload c1 c2| |db'|]; simpl;
    try (intros; simplify_eq; left; by constructor).
  - (* the drain loop *)
    destruct (scalar _) as [d|] eqn:Hd.
    + intros Hdel. apply scalar_elem, take_1_elem, order_by_elem in Hd.
      apply list_elem_of_filter in Hd as [[Hc Hdue] Hin].
      apply deliver_cases in Hdel as [->|(r & Hid & -> & Hst)].
      * left. repeat constructor.
      * right. exists d, r, []. split_and!; try done.
        -- constructor.
        -- unfold Dispatch.key. by rewrite Hc, Hid.
    + intros; simplify_eq. left. repeat constructor.
  - (* a notification *)
    destruct (scalar _) as [d|] eqn:Hd.
    + destruct (deliver _ _ _ _) as [s1 ev1] eqn:Hdel. intros; simplify_eq.
      apply scalar_elem in Hd.
      apply list_elem_of_filter in Hd as [Hp' Hd].
      apply list_elem_of_filter in Hd as [[Hc Hdue] Hin].
      apply deliver_cases in Hdel as [->|(r & Hid & -> & Hst)].
      * left. repeat constructor.
      * right. exists d, r, [RolledBack]. split_and!; try done.
        -- repeat constructor.
        -- unfold Dispatch.key. by rewrite Hc, Hid.
    + intros; simplify_eq. left. constructor.
Qed.

End Resumption.

(** ** Authorization by dispatch *)

Section Authorization.

Variable best_match : Accept → list string → option string.
Variable get_content_type : string → string → string.
Variable PARSER_parsebytes : bytes → Message.
Variable unquote : string → string.
Variable str_strip : string → string.
Variable str_split : string → list string.


End Authorization.


(** ** [GET /mail/{id}]: 404 before 406 *)

Section Negotiation.

Variable best_match : Accept → list string → option string.
Variable get_content_type : string → string → string.
Variable PARSER_parsebytes : bytes → Message.
Variable unquote : string → string.
Variable str_strip : string → string.
Variable str_split : string → list string.

Local Abbreviation retrieve_mail :=
  (retrieve_mail best_match get_content_type PARSER_parsebytes unquote
     str_strip str_split).

Lemma retrieve_mail_as_text_status db consumer id mimetype r :
  retrieve_mail_as_text get_content_type db consumer id mimetype = inr r →
  status r ≠ 406.
Proof.
  unfold retrieve_mail_as_text.
  destruct (one_or_none _) as [e|[mail|]]; simpl; [done| |by intros [= <-]].
  destruct (Codec.utf8_decode (Mail.data mail.2)); simpl;
    [by intros [= <-]|done].
Qed.

Lemma retrieve_mail_as_json_status db consumer id r :
  retrieve_mail_as_json PARSER_parsebytes unquote str_strip str_split db
    consumer id = inr r →
  status r ≠ 406.
Proof.
  unfold retrieve_mail_as_json.
  destruct (one_or_none _) as [e|[mail|]]; [done| |]; by intros [= <-].
Qed.

Lemma dispatch_select_nonempty db consumer id :
  dispatch_to_mail db →
  has_dispatch db consumer id →
  filter_by_id id (Mail_consumer_select db consumer) ≠ [].
Proof.
  intros Hfk Hd Hnil.
  pose proof Hd as Hd'. apply Exists_exists in Hd' as (d & Hin & Hk).
  destruct (Hfk d Hin) as [m Hm].
  assert (Hin' : (id, m) ∈ filter_by_id id (Mail_consumer_select db consumer)).
  { apply filter_by_id_elem. split; [done|].
    apply consumer_select_elem. split; [done|].
    unfold Dispatch.key in Hk. by simplify_eq. }
  rewrite Hnil in Hin'. by apply elem_of_nil in Hin'.
Qed.

(** C5.  Without a dispatch [GET /mail/{id}] answers 404 whatever the Accept
    header; a 406 answer implies that the dispatch exists and that the
    negotiation chose none of the three offered types; and with the dispatch
    (and the mail it refers to) such a negotiation is answered 406. *)
Theorem retrieve_mail_checks_dispatch_before_accept db request consumer id :
  let mime := ["text/plain"; "application/json"; "message/rfc822"] in
  (¬ has_dispatch db consumer id →
   retrieve_mail db request consumer id = inr Not_Found)
  ∧ (∀ r, retrieve_mail db request consumer id = inr r →
          status r = 406 →
          has_dispatch db consumer id
          ∧ ∀ m, negotiate best_match request mime = Some m → m ∉ mime)
  ∧ (has_dispatch db consumer id →
     dispatch_to_mail db →
     (∀ m, negotiate best_match request mime = Some m → m ∉ mime) →
     retrieve_mail db request consumer id = inr Not_Acceptable).
Proof.
  intros mime.
  assert (Hfall : ∀ r,
    match filter_by_id id (Mail_consumer_select db consumer) with
    | [] => inr Not_Found
    | _ :: _ => inr Not_Acceptable
    end = (inr r : View) →
    status r = 406 → has_dispatch db consumer id).
  { intros r. destruct (filter_by_id _ _) eqn:E; intros [= <-]; [done|].
    intros _. apply select_nonempty_dispatch. by rewrite E. }
  split_and!.
  - apply retrieve_mail_without_dispatch.
  - intros r. unfold retrieve_mail.
    destruct (negotiate _ _ _) as [m|] eqn:Hn.
    + destruct (_ || _) eqn:Ht.
      { by intros H%retrieve_mail_as_text_status. }
      destruct (bool_decide (m = "application/json")) eqn:Hj.
      { by intros H%retrieve_mail_as_json_status. }
      intros Hr H406. split; [by eapply Hfall|].
      intros m' [= <-]. apply orb_false_iff in Ht as [Ht1 Ht2].
      apply bool_decide_eq_false in Ht1, Ht2, Hj.
      unfold mime. rewrite !not_elem_of_cons. split_and!; try done.
      apply not_elem_of_nil.
    + intros Hr H406. split; [by eapply Hfall|]. done.
  - intros Hd Hfk Hnone. unfold retrieve_mail.
    pose proof (dispatch_select_nonempty _ _ _ Hfk Hd) as Hne.
    destruct (negotiate _ _ _) as [m|] eqn:Hn.
    + specialize (Hnone m eq_refl). unfold mime in Hnone.
      rewrite !not_elem_of_cons in Hnone.
      destruct Hnone as (H1 & H2 & H3 & _).
      rewrite !bool_decide_eq_false_2 by done. simpl.
      by destruct (filter_by_id _ _).
    + by destruct (filter_by_id _ _).
Qed.

End Negotiation.

Lemma retrieve_mail_checks_dispatch_before_accept_witness :
  (¬ has_dispatch sample_db 2 "second"
   ∧ retrieve_mail no_match sample_content_type sample_parsebytes id id
       sample_split sample_db (sample_request [("none/plain", 1000%N)]) 2
       "second" = inr Not_Found)
  ∧ (has_dispatch sample_db 1 "second"
     ∧ retrieve_mail no_match sample_content_type sample_parsebytes id id
         sample_split sample_db (sample_request [("none/plain", 1000%N)]) 1
         "second" = inr Not_Acceptable).
Proof.
  pose proof (retrieve_mail_checks_dispatch_before_accept no_match
                sample_content_type sample_parsebytes id id sample_split
                sample_db (sample_request [("none/plain", 1000%N)]))
    as H.
  split.
  - assert (Hno : ¬ has_dispatch sample_db 2 "second").
    { apply (bool_decide_eq_false_1 (has_dispatch sample_db 2 "second")).
      vm_compute. reflexivity. }
    split; [exact Hno|]. exact (proj1 (H 2 "second") Hno).
  - assert (Hd : has_dispatch sample_db 1 "second").
    { apply (bool_decide_eq_true_1 (has_dispatch sample_db 1 "second")).
      vm_compute. reflexivity. }
    split; [exact Hd|].
    apply (proj2 (proj2 (H 1 "second")) Hd).
    + intros d Hin. unfold sample_db in Hin. simpl in Hin.
      repeat (apply elem_of_cons in Hin as [->|Hin]);
        [by eexists..|by apply elem_of_nil in Hin].
    + intros m Hm. discriminate Hm.
Defined.

(** ** [DELETE /mail/{id}] *)

Lemma doomed_iff_key (consumer : Z) (id : string) (d : Dispatch.t) :
  Dispatch.mail_id d = id ∧ Dispatch.consumer_id d = consumer
  ↔ Dispatch.key d = (consumer, id).
Proof. unfold Dispatch.key. split; [by intros [-> ->]|by intros [= -> ->]]. Qed.

Lemma filter_key_length_le_1 (k : Z * string) (l : list Dispatch.t) :
  NoDup (Dispatch.key <$> l) →
  (length (filter (λ d, Dispatch.key d = k) l) ≤ 1)%nat.
Proof.
  induction l as [|d l IH]; simpl; [lia|].
  rewrite NoDup_cons. intros [Hd Hl]. rewrite filter_cons.
  destruct (decide (Dispatch.key d = k)) as [<-|]; [|by apply IH].
  simpl. assert (filter (λ d', Dispatch.key d' = Dispatch.key d) l = []) as ->;
    [|simpl; lia].
  apply elem_of_nil_inv. intros d' [Hk Hin]%list_elem_of_filter.
  apply Hd. rewrite <- Hk. by apply list_elem_of_fmap_2.
Qed.

Lemma filter_length_split {A} (P : A → Prop) `{∀ x, Decision (P x)}
    (l : list A) :
  length l = (length (filter P l) + length (filter (λ x, ¬ P x) l))%nat.
Proof.
  induction l as [|x l IH]; simpl; [done|].
  rewrite !filter_cons. destruct (decide (P x)), (decide (¬ P x)); simpl;
    try lia; tauto.
Qed.

(** C9.  [DELETE /mail/{id}] leaves the [mail], [attachment] and [consumer]
    tables as they are; the [dispatch] rows that remain are exactly the old
    ones whose key is not (consumer, id), in their old order; the answer is
    200 when a row of that key existed and 404 (with the store unchanged)
    when none did; and under the primary key exactly one row goes away with
    a 200. *)
Theorem delete_mail_removes_only_the_dispatch db consumer_id id :
  let '(response, db') := delete_mail db consumer_id id in
  mail db' = mail db
  ∧ attachment db' = attachment db
  ∧ consumer db' = consumer db
  ∧ dispatch db'
    = filter (λ d, Dispatch.key d ≠ (consumer_id, id)) (dispatch db)
  ∧ (∀ d, d ∈ dispatch db'
          ↔ d ∈ dispatch db ∧ Dispatch.key d ≠ (consumer_id, id))
  ∧ (has_dispatch db consumer_id id → response = make (BodyText "") 200)
  ∧ (¬ has_dispatch db consumer_id id → response = Not_Found ∧ db' = db)
  ∧ (dispatch_primary_key db → has_dispatch db consumer_id id →
     length (dispatch db) = S (length (dispatch db'))).
Proof.
  unfold delete_mail.
  set (doomed := λ d : Dispatch.t,
         Dispatch.mail_id d = id ∧ Dispatch.consumer_id d = consumer_id).
  assert (Hrest : filter (λ d, ¬ doomed d) (dispatch db)
                  = filter (λ d, Dispatch.key d ≠ (consumer_id, id))
                      (dispatch db)).
  { apply list_filter_iff. intros d. unfold doomed.
    by rewrite doomed_iff_key. }
  assert (Hgone : filter doomed (dispatch db)
                  = filter (λ d, Dispatch.key d = (consumer_id, id))
                      (dispatch db)).
  { apply list_filter_iff. intros d. apply doomed_iff_key. }
  assert (Hcount : has_dispatch db consumer_id id
                   ↔ length (filter doomed (dispatch db)) ≠ 0%nat).
  { rewrite Hgone. unfold has_dispatch. rewrite Exists_exists. split.
    - intros (d & Hin & Hk) Hlen. apply nil_length_inv in Hlen.
      exact (filter_nil_not_elem_of _ _ d Hlen Hk Hin).
    - destruct (filter (λ d, Dispatch.key d = (consumer_id, id))
                  (dispatch db)) as [|d l] eqn:E; [done|]. intros _.
      assert (Hd : d ∈ filter (λ d, Dispatch.key d = (consumer_id, id))
                     (dispatch db)) by (rewrite E; left).
      apply list_elem_of_filter in Hd as [Hk Hin]. eauto. }
  subst doomed. cbv beta in *. simpl. split_and!; try done.
  - intros d. rewrite Hrest, list_elem_of_filter. tauto.
  - intros Hd. apply Hcount in Hd. by rewrite decide_False.
  - intros Hno. rewrite Hgone in *. rewrite Hrest.
    destruct (decide (length (filter (λ d, Dispatch.key d = (consumer_id, id))
                                (dispatch db)) = 0%nat)) as [Hz|Hnz];
      [|by apply Hcount in Hnz].
    split; [done|].
    destruct db as [m a c ds]. unfold with_dispatch. simpl in *. f_equal.
    clear Hrest Hgone Hcount Hno. apply nil_length_inv in Hz.
    induction ds as [|d ds IH]; [done|].
    rewrite filter_cons in Hz |- *.
    destruct (decide (Dispatch.key d = (consumer_id, id))); [done|].
    rewrite decide_True by done. f_equal. by apply IH.
  - intros Hpk Hd. apply Hcount in Hd. rewrite Hgone in Hd. rewrite Hrest.
    pose proof (filter_key_length_le_1 (consumer_id, id) _ Hpk) as Hle.
    rewrite (filter_length_split (λ d, Dispatch.key d = (consumer_id, id))
               (dispatch db)).
    lia.
Qed.

Lemma delete_mail_removes_only_the_dispatch_witness :
  has_dispatch sample_db 1 "second"
  ∧ (delete_mail sample_db 1 "second").1 = make (BodyText "") 200
  ∧ dispatch (delete_mail sample_db 1 "second").2
    = [sample_dispatch 1 "first" 100; sample_dispatch 2 "first" 150].
Proof.
  assert (Hd : has_dispatch sample_db 1 "second").
  { apply (bool_decide_eq_true_1 (has_dispatch sample_db 1 "second")).
    vm_compute. reflexivity. }
  pose proof (delete_mail_removes_only_the_dispatch sample_db 1 "second")
    as H.
  destruct (delete_mail sample_db 1 "second") as [response db'] eqn:E.
  destruct H as (_ & _ & _ & Hrows & _ & Hok & _).
  split; [exact Hd|]. split; [exact (Hok Hd)|].
  simpl. rewrite Hrows. vm_compute. reflexivity.
Defined.

(** ** [GET /mail/{id}] as text *)

Lemma consumer_select_cons m a c d ds consumer_id :
  Mail_consumer_select
    {| mail := m; attachment := a; consumer := c; dispatch := d :: ds |}
    consumer_id
  = (if decide (Dispatch.consumer_id d = consumer_id)
     then match m !! Dispatch.mail_id d with
          | Some row => [(Dispatch.mail_id d, row)]
          | None => []
          end
     else [])
    ++ Mail_consumer_select
         {| mail := m; attachment := a; consumer := c; dispatch := ds |}
         consumer_id.
Proof.
  unfold Mail_consumer_select. simpl. rewrite filter_cons.
  destruct (decide _); [|done]. simpl. unfold Dispatch_mail at 1. simpl.
  by destruct (m !! Dispatch.mail_id d).
Qed.

(** Under the primary key of [dispatch], the select of a mail the consumer
    has a dispatch for is that one mail. *)
Lemma select_with_dispatch db consumer_id id row :
  dispatch_primary_key db →
  has_dispatch db consumer_id id →
  mail db !! id = Some row →
  filter_by_id id (Mail_consumer_select db consumer_id) = [(id, row)].
Proof.
  destruct db as [m a c ds]. unfold dispatch_primary_key, has_dispatch.
  simpl. intros Hpk Hd Hrow.
  induction ds as [|d ds IH]; [by apply Exists_nil in Hd|].
  rewrite fmap_cons, NoDup_cons in Hpk. destruct Hpk as [Hnotin Hpk].
  rewrite consumer_select_cons. unfold filter_by_id. rewrite filter_app.
  fold (filter_by_id id (Mail_consumer_select
          {| mail := m; attachment := a; consumer := c; dispatch := ds |}
          consumer_id)).
  destruct (decide (Dispatch.key d = (consumer_id, id))) as [Hk|Hk].
  - unfold Dispatch.key in Hk. injection Hk as Hc Hi.
    rewrite decide_True by done. rewrite Hi, Hrow.
    rewrite filter_cons, decide_True by done.
    rewrite select_without_dispatch; [done|].
    unfold has_dispatch. simpl. rewrite Exists_exists.
    intros (d' & Hin & Hk'). apply Hnotin.
    apply list_elem_of_fmap. exists d'. split; [|done].
    unfold Dispatch.key. by rewrite Hc, Hi.
  - apply Exists_cons in Hd as [Hd|Hd]; [done|].
    rewrite (IH Hpk Hd).
    assert (filter (λ r : string * Mail.t, r.1 = id)
              (if decide (Dispatch.consumer_id d = consumer_id)
               then match m !! Dispatch.mail_id d with
                    | Some row => [(Dispatch.mail_id d, row)]
                    | None => []
                    end
               else []) = []) as ->; [|done].
    destruct (decide _) as [Hc|]; [|done].
    destruct (m !! Dispatch.mail_id d); [|done].
    rewrite filter_cons, decide_False; [done|].
    simpl. intros Hi. apply Hk. unfold Dispatch.key. by rewrite Hc, Hi.
Qed.

Section Text.

Variable best_match : Accept → list string → option string.
Variable get_content_type : string → string → string.
Variable PARSER_parsebytes : bytes → Message.
Variable unquote : string → string.
Variable str_strip : string → string.
Variable str_split : string → list string.

(** C10.  When [GET /mail/{id}] is negotiated to [text/plain] or
    [message/rfc822] and the dispatch exists, the stored bytes are decoded as
    UTF-8 without a guard: bytes that decode give 200 with the decoded text,
    and bytes that do not decode make the view raise [UnicodeDecodeError]
    in place of any response; a stored mail for which it raises exists. *)
Theorem retrieve_mail_as_text_decodes_unguarded :
  (∀ db request consumer_id id mimetype row,
     negotiate best_match request
       ["text/plain"; "application/json"; "message/rfc822"] = Some mimetype →
     mimetype = "text/plain" ∨ mimetype = "message/rfc822" →
     dispatch_primary_key db →
     has_dispatch db consumer_id id →
     mail db !! id = Some row →
     retrieve_mail best_match get_content_type PARSER_parsebytes unquote
       str_strip str_split db request consumer_id id
     = match Codec.utf8_decode (Mail.data row) with
       | Some data =>
         inr {| status := 200;
                content_type := Some (get_content_type mimetype "utf-8");
                www_authenticate := None;
                body := BodyStr data |}
       | None => inl UnicodeDecodeError
       end)
  ∧ (∃ db consumer_id id row,
       dispatch_primary_key db
       ∧ has_dispatch db consumer_id id
       ∧ mail db !! id = Some row
       ∧ ∀ mimetype,
           retrieve_mail_as_text get_content_type db consumer_id id mimetype
           = inl UnicodeDecodeError).
Proof.
  split.
  - intros db request consumer_id id mimetype row Hn Hm Hpk Hd Hrow.
    unfold retrieve_mail. rewrite Hn.
    assert (bool_decide (mimetype = "text/plain")
            || bool_decide (mimetype = "message/rfc822") = true) as ->.
    { destruct Hm as [-> | ->]; done. }
    unfold retrieve_mail_as_text.
    rewrite (select_with_dispatch _ _ _ _ Hpk Hd Hrow). simpl.
    by destruct (Codec.utf8_decode _).
  - exists {| mail := {["bad" := {| Mail.date := 0; Mail.text := "";
                                    Mail.data := [xff] |}]};
              attachment := ∅;
              consumer := {[1 := {| Consumer.name := "test-consumer" |}]};
              dispatch := [sample_dispatch 1 "bad" 0] |}, 1, "bad",
           {| Mail.date := 0; Mail.text := ""; Mail.data := [xff] |}.
    split_and!.
    + unfold dispatch_primary_key. simpl. apply NoDup_singleton.
    + unfold has_dispatch. simpl. by left.
    + done.
    + intros mimetype. reflexivity.
Qed.

End Text.

Lemma retrieve_mail_as_text_decodes_unguarded_witness :
  retrieve_mail literal_match sample_content_type sample_parsebytes id id
    sample_split sample_db (sample_request [("text/plain", 1000%N)]) 1 "first"
  = match Codec.utf8_decode (Mail.data (sample_mail "first")) with
    | Some data =>
      inr {| status := 200;
             content_type := Some (sample_content_type "text/plain" "utf-8");
             www_authenticate := None;
             body := BodyStr data |}
    | None => inl UnicodeDecodeError
    end.
Proof.
  apply (proj1 (retrieve_mail_as_text_decodes_unguarded literal_match
                  sample_content_type sample_parsebytes id id sample_split)).
  - reflexivity.
  - left. reflexivity.
  - apply (bool_decide_eq_true_1
             (NoDup (Dispatch.key <$> dispatch sample_db))).
    vm_compute. reflexivity.
  - apply (bool_decide_eq_true_1 (has_dispatch sample_db 1 "first")).
    vm_compute. reflexivity.
  - reflexivity.
Defined.

(** ** Delivery advances the dispatch *)

Lemma Dispatch_advance_key now d :
  Dispatch.key (Dispatch_advance now d) = Dispatch.key d.
Proof. done. Qed.

Lemma primary_key_inj (l : list Dispatch.t) d1 d2 :
  NoDup (Dispatch.key <$> l) →
  d1 ∈ l → d2 ∈ l → Dispatch.key d1 = Dispatch.key d2 → d1 = d2.
Proof.
  induction l as [|d l IH]; [by intros _ ?%elem_of_nil|].
  rewrite fmap_cons, NoDup_cons. intros [Hd Hl] H1 H2 Hk.
  apply elem_of_cons in H1 as [->|H1], H2 as [->|H2]; [done| | |by apply IH].
  - destruct Hd. rewrite Hk. by apply list_elem_of_fmap_2.
  - destruct Hd. rewrite <- Hk. by apply list_elem_of_fmap_2.
Qed.

Lemma flush_advance_rows now d db d' :
  d' ∈ dispatch (flush_advance now d db) →
  Dispatch.key d' = Dispatch.key d →
  Dispatch.last_time d' = Some now ∧ Dispatch.next_time d' = now + hour.
Proof.
  unfold flush_advance. simpl. rewrite list_elem_of_fmap.
  intros (d1 & -> & Hin). destruct (decide _) as [Hk|Hk]; [done|].
  by intros ?.
Qed.

Lemma flush_advance_elem now d db :
  d ∈ dispatch db → Dispatch_advance now d ∈ dispatch (flush_advance now d db).
Proof.
  intros Hin. unfold flush_advance. simpl. apply list_elem_of_fmap.
  exists d. by rewrite decide_True.
Qed.

Section Advance.

Variable best_match : Accept → list string → option string.
Variable PARSER_parsebytes : bytes → Message.
Variable unquote : string → string.
Variable str_strip : string → string.
Variable str_split : string → list string.

Local Abbreviation select_mail :=
  (select_mail best_match PARSER_parsebytes unquote str_strip str_split).
Local Abbreviation stream_mail :=
  (stream_mail PARSER_parsebytes unquote str_strip str_split).

Lemma select_mail_delivered_store db request consumer_id now r :
  r ∈ delivered (select_mail db request consumer_id now).1 →
  (select_mail db request consumer_id now).2
  = (dispatch_update db consumer_id now).2.
Proof.
  unfold select_mail. destruct (bool_decide _); [done|].
  destruct (bool_decide _); simpl; by intros ?%elem_of_nil.
Qed.

(** C2.  After a delivery through [GET /mail], by the batch response or by a
    line of the stream, the [Dispatch] row of the consumer for the delivered
    mail exists in the committed store with [last_time] the [now()] of the
    delivering transaction and [next_time] an hour later. *)
Theorem delivery_advances_dispatch :
  (∀ db request consumer_id now r,
     dispatch_primary_key db →
     r ∈ delivered (select_mail db request consumer_id now).1 →
     (∃ d, d ∈ dispatch (select_mail db request consumer_id now).2
           ∧ Dispatch.key d = (consumer_id, Resource.id r))
     ∧ ∀ d, d ∈ dispatch (select_mail db request consumer_id now).2 →
            Dispatch.key d = (consumer_id, Resource.id r) →
            Dispatch.last_time d = Some now
            ∧ Dispatch.next_time d = now + hour
            ∧ now + hour ≤ Dispatch.next_time d)
  ∧ (∀ consumer_id s i s' events r,
       stream_mail consumer_id s i = (s', events) →
       Yielded r ∈ events →
       (∃ d, d ∈ dispatch (store (session s'))
             ∧ Dispatch.key d = (consumer_id, Resource.id r))
       ∧ ∀ d, d ∈ dispatch (store (session s')) →
              Dispatch.key d = (consumer_id, Resource.id r) →
              Dispatch.last_time d = Some (delivery_instant s i)
              ∧ Dispatch.next_time d = delivery_instant s i + hour
              ∧ delivery_instant s i + hour ≤ Dispatch.next_time d).
Proof.
  split.
  - intros db request consumer_id now r Hpk Hr.
    rewrite (select_mail_delivered_store _ _ _ _ _ Hr).
    apply select_mail_delivered in Hr as (d0 & Hin0 & Hdue & Hid).
    assert (Hk0 : Dispatch.key d0 = (consumer_id, Resource.id r)).
    { unfold Dispatch.key. destruct Hdue as [-> _]. by rewrite Hid. }
    unfold dispatch_update. simpl. split.
    + exists (Dispatch_advance now d0). split; [|done].
      apply list_elem_of_fmap. exists d0. by rewrite decide_True.
    + intros d Hd Hk. apply list_elem_of_fmap in Hd as (d1 & -> & Hin1).
      assert (d1 = d0) as ->.
      { apply (primary_key_inj (dispatch db)); try done.
        rewrite Hk0, <- Hk. by destruct (decide _). }
      rewrite decide_True by done. simpl. split_and!; [done..|lia].
  - intros consumer_id s i s' events r Hstep Hy.
    apply stream_mail_cases in Hstep
      as [Hq|(d & r' & pre & Hq & Hin & Hk & -> & ->)].
    { unfold quiet in Hq. rewrite Forall_forall in Hq. by apply Hq in Hy. }
    assert (r' = r) as ->.
    { apply elem_of_app in Hy as [Hy|Hy].
      - unfold quiet in Hq. rewrite Forall_forall in Hq. by apply Hq in Hy.
      - apply elem_of_cons in Hy as [?|Hy]; [done|].
        apply list_elem_of_singleton in Hy. by simplify_eq. }
    split.
    + exists (Dispatch_advance (delivery_instant s i) d).
      split; [by apply flush_advance_elem|done].
    + intros d' Hd' Hk'. rewrite <- Hk in Hk'.
      destruct (flush_advance_rows _ _ _ _ Hd' Hk') as [Hl Hn].
      split_and!; [done..|lia].
Qed.

End Advance.

Lemma delivery_advances_dispatch_witness :
  sample_resource "first"
    ∈ delivered (select_mail literal_match sample_parsebytes (λ s, s)
                   (λ s, s) sample_split sample_db
                   (sample_request [("application/json", 1000%N)]) 1 1000).1
  ∧ ∀ d,
      d ∈ dispatch (select_mail literal_match sample_parsebytes (λ s, s)
                      (λ s, s) sample_split sample_db
                      (sample_request [("application/json", 1000%N)])
                      1 1000).2 →
      Dispatch.key d = (1, Resource.id (sample_resource "first")) →
      Dispatch.last_time d = Some 1000
      ∧ Dispatch.next_time d = 1000 + hour
      ∧ 1000 + hour ≤ Dispatch.next_time d.
Proof.
  assert (Hpk : dispatch_primary_key sample_db).
  { apply (bool_decide_eq_true_1
             (NoDup (Dispatch.key <$> dispatch sample_db))).
    vm_compute. reflexivity. }
  assert (Hr : sample_resource "first"
    ∈ delivered (select_mail literal_match sample_parsebytes (λ s, s)
                   (λ s, s) sample_split sample_db
                   (sample_request [("application/json", 1000%N)]) 1 1000).1).
  { vm_compute. apply list_elem_of_further, list_elem_of_here. }
  split; [exact Hr|].
  exact (proj2 (proj1 (delivery_advances_dispatch literal_match
                         sample_parsebytes (λ s, s) (λ s, s) sample_split)
                  sample_db (sample_request [("application/json", 1000%N)])
                  1 1000 (sample_resource "first") Hpk Hr)).
Defined.

(** ** Commit before yield *)

Lemma quiet_paired consumer_id t : quiet t → paired consumer_id t.
Proof.
  induction t as [|e t IH]; [constructor|].
  intros [He Ht]%Forall_cons. apply paired_quiet; [|by apply IH].
  by apply Forall_singleton.
Qed.

Lemma paired_app consumer_id t1 t2 :
  paired consumer_id t1 → paired consumer_id t2 →
  paired consumer_id (t1 ++ t2).
Proof.
  induction 1; intros H2; simpl; [done|..].
  - apply paired_quiet; auto.
  - apply paired_delivery; auto.
Qed.

Lemma flush_single_advance consumer_id r now d db :
  d ∈ dispatch db →
  Dispatch.key d = (consumer_id, Resource.id r) →
  single_advance consumer_id (Resource.id r) now db (flush_advance now d db).
Proof.
  intros Hin Hk. unfold single_advance, flush_advance. simpl.
  split_and!; try done.
  - apply Exists_exists. eauto.
  - by rewrite Hk.
Qed.

(** Under the primary key a single advance changes one row. *)
Lemma single_advance_one_row consumer_id id now before after :
  single_advance consumer_id id now before after →
  dispatch_primary_key before →
  ∃ l1 d l2,
    Dispatch.key d = (consumer_id, id)
    ∧ dispatch before = l1 ++ d :: l2
    ∧ dispatch after = l1 ++ Dispatch_advance now d :: l2.
Proof.
  intros (_ & _ & _ & Hd & ->). unfold dispatch_primary_key.
  apply Exists_exists in Hd as (d & Hin & Hk). intros Hpk.
  apply list_elem_of_split in Hin as (l1 & l2 & Hl).
  exists l1, d, l2. split; [done|]. split; [done|].
  rewrite Hl in Hpk |- *. rewrite fmap_app, fmap_cons, decide_True by done.
  assert (Hsame : ∀ l : list Dispatch.t,
            (∀ x, x ∈ l → Dispatch.key x ≠ (consumer_id, id)) →
            (λ d0, if decide (Dispatch.key d0 = (consumer_id, id))
                   then Dispatch_advance now d0 else d0) <$> l = l).
  { intros l Hne. induction l as [|x l IH]; [done|].
    rewrite fmap_cons, decide_False by (apply Hne; left).
    f_equal. apply IH. intros y Hy. apply Hne. by right. }
  rewrite fmap_app, fmap_cons in Hpk.
  apply NoDup_app in Hpk as (_ & Hl1 & Hpk). apply NoDup_cons in Hpk as [Hl2 _].
  rewrite !Hsame; [done|..].
  - intros x Hx Hkx. apply Hl2. rewrite Hk, <- Hkx.
    by apply list_elem_of_fmap_2.
  - intros x Hx Hkx. apply (Hl1 (Dispatch.key x)).
    + by apply list_elem_of_fmap_2.
    + rewrite Hkx, <- Hk. left.
Qed.

Lemma quiet_singleton e :
  quiet [e] →
  match e with RolledBack | Raised _ => True | _ => False end.
Proof. intros H. by inversion H. Qed.

Lemma paired_yield consumer_id t :
  paired consumer_id t →
  ∀ n r, t !! n = Some (Yielded r) →
  ∃ m now before after,
    n = S m
    ∧ t !! m = Some (Committed now before after)
    ∧ single_advance consumer_id (Resource.id r) now before after.
Proof.
  induction 1 as [|e t He Ht IH|now before after r0 t Hs Ht IH]; intros n r Hn.
  - done.
  - destruct n as [|n]; simpl in Hn.
    + apply quiet_singleton in He. injection Hn as ->. destruct He.
    + destruct (IH n r Hn) as (m & now & before & after & -> & Hm & Hs).
      exists (S m), now, before, after. done.
  - destruct n as [|[|n]]; simpl in Hn; [done|..].
    + simplify_eq. exists 0%nat, now, before, after. done.
    + destruct (IH n r Hn) as (m & now' & before' & after' & -> & Hm & Hs').
      exists (S (S m)), now', before', after'. done.
Qed.

Lemma paired_commit consumer_id t :
  paired consumer_id t →
  ∀ m now before after, t !! m = Some (Committed now before after) →
  ∃ r, t !! S m = Some (Yielded r).
Proof.
  induction 1 as [|e t He Ht IH|now0 before0 after0 r0 t Hs Ht IH];
    intros m now before after Hm.
  - done.
  - destruct m as [|m]; simpl in Hm.
    + apply quiet_singleton in He. injection Hm as ->. destruct He.
    + by apply (IH m now before after).
  - destruct m as [|[|m]]; simpl in Hm; [by exists r0|done|].
    by apply (IH m now before after).
Qed.

Lemma paired_prefix consumer_id t :
  paired consumer_id t →
  ∀ k, (count is_commit (take k t) ≤ S (count is_yield (take k t)))%nat.
Proof.
  unfold count.
  induction 1 as [|e t He Ht IH|now before after r t Hs Ht IH]; intros k.
  - rewrite take_nil. simpl. lia.
  - destruct k as [|k]; simpl; [lia|]. rewrite !filter_cons.
    apply quiet_singleton in He. specialize (IH k).
    destruct e; try done; simpl; lia.
  - destruct k as [|[|k]]; simpl; [lia|lia|].
    specialize (IH k). rewrite !filter_cons. simpl. lia.
Qed.

Section Trace.

Variable PARSER_parsebytes : bytes → Message.
Variable unquote : string → string.
Variable str_strip : string → string.
Variable str_split : string → list string.

Local Abbreviation stream_mail :=
  (stream_mail PARSER_parsebytes unquote str_strip str_split).
Local Abbreviation stream_mail_run :=
  (stream_mail_run PARSER_parsebytes unquote str_strip str_split).

Lemma stream_mail_paired consumer_id s i s' events :
  stream_mail consumer_id s i = (s', events) → paired consumer_id events.
Proof.
  intros [Hq|(d & r & pre & Hq & Hin & Hk & -> & _)]%stream_mail_cases.
  - by apply quiet_paired.
  - apply paired_app; [by apply quiet_paired|].
    apply paired_delivery; [|constructor]. by apply flush_single_advance.
Qed.

Lemma stream_mail_run_paired consumer_id inputs :
  ∀ s s' trace,
    stream_mail_run consumer_id s inputs = (s', trace) →
    paired consumer_id trace.
Proof.
  induction inputs as [|i inputs IH]; intros s s' trace; simpl.
  - intros [= <- <-]. constructor.
  - destruct (stream_mail consumer_id s i) as [s1 events] eqn:Hstep.
    destruct (stream_mail_run consumer_id s1 inputs) as [s2 events'] eqn:Hrun.
    intros [= <- <-]. apply paired_app.
    + by eapply stream_mail_paired.
    + by eapply IH.
Qed.

(** C8.  In a run of the streaming generator, whatever resumes it, every
    yield comes immediately after a commit that advanced the dispatch rows
    of one key, that of the consumer and the yielded mail (one row under the
    primary key), and nothing else; every commit is immediately followed by
    the yield of its mail; so wherever the run is cut, at most one commit has
    no yield after it. *)
Theorem stream_mail_commits_before_it_yields consumer_id s inputs s' trace :
  stream_mail_run consumer_id s inputs = (s', trace) →
  (∀ n r, trace !! n = Some (Yielded r) →
     ∃ m now before after,
       n = S m
       ∧ trace !! m = Some (Committed now before after)
       ∧ single_advance consumer_id (Resource.id r) now before after
       ∧ (dispatch_primary_key before →
          ∃ l1 d l2,
            Dispatch.key d = (consumer_id, Resource.id r)
            ∧ dispatch before = l1 ++ d :: l2
            ∧ dispatch after = l1 ++ Dispatch_advance now d :: l2))
  ∧ (∀ m now before after,
       trace !! m = Some (Committed now before after) →
       ∃ r, trace !! S m = Some (Yielded r))
  ∧ (∀ k, (count is_commit (take k trace)
           ≤ S (count is_yield (take k trace)))%nat).
Proof.
  intros Hp%stream_mail_run_paired. split_and!.
  - intros n r Hn.
    destruct (paired_yield _ _ Hp n r Hn)
      as (m & now & before & after & -> & Hm & Hs).
    exists m, now, before, after. split_and!; try done.
    by apply single_advance_one_row.
  - by apply (paired_commit consumer_id).
  - by apply (paired_prefix consumer_id).
Qed.

End Trace.

Lemma stream_mail_commits_before_it_yields_witness :
  sample_run.2 !! 1%nat = Some (Yielded (sample_resource "first"))
  ∧ ∃ m now before after,
      1%nat = S m
      ∧ sample_run.2 !! m = Some (Committed now before after)
      ∧ single_advance 1 "first" now before after.
Proof.
  assert (Hy : sample_run.2 !! 1%nat
               = Some (Yielded (sample_resource "first"))).
  { vm_compute. reflexivity. }
  split; [exact Hy|].
  destruct (proj1 (stream_mail_commits_before_it_yields sample_parsebytes
                     (λ s, s) (λ s, s) sample_split 1
                     (stream_mail_open sample_db)
                     [Tick 1000; Tick 1001; Tick 1002; NotifyEnd; Tick 1003]
                     sample_run.1 sample_run.2 (surjective_pairing sample_run))
              1%nat (sample_resource "first") Hy)
    as (m & now & before & after & Hm & Hc & Hs & _).
  exists m, now, before, after. split; [exact Hm|]. split; [exact Hc|].
  exact Hs.
Defined.

(** ** Authentication *)

Lemma append_empty_r (s : string) : String.append s EmptyString = s.
Proof.
  induction s as [|a s IH]; [done|].
  change (String a (String.append s EmptyString) = String a s).
  by rewrite IH.
Qed.

Lemma strip_prefix_spec prefix s rest :
  strip_prefix prefix s = Some rest ↔ s = String.append prefix rest.
Proof.
  revert s. induction prefix as [|a prefix IH]; intros s; simpl.
  - split; [by intros [= ->]|by intros ->].
  - destruct s as [|b s]; [done|]. destruct (decide (a = b)) as [->|Hne].
    + rewrite IH. split; [by intros ->|by intros [= ->]].
    + split; [done|]. intros [= -> _]. done.
Qed.

Lemma span_digits_spec s digits tail :
  span_digits s = (digits, tail) ↔
  s = String.append digits tail
  ∧ all_digits digits
  ∧ match tail with
    | EmptyString => True
    | String a _ => is_digit a = false
    end.
Proof.
  revert digits tail. induction s as [|a s IH]; intros digits tail; simpl.
  - split.
    + intros [= <- <-]. split_and!; [done|constructor|done].
    + intros (Hs & _ & _). by destruct digits, tail.
  - destruct (is_digit a) eqn:Ha.
    + destruct (span_digits s) as [d t] eqn:E. split.
      * intros [= <- <-].
        destruct (proj1 (IH d t) eq_refl) as (-> & Hd & Ht).
        split_and!; [done|by constructor|done].
      * intros (Hs & Hd' & Ht'). destruct digits as [|a' digits].
        { change (String a s = tail) in Hs. subst tail. congruence. }
        change (String a s = String a' (digits +:+ tail)) in Hs.
        injection Hs as <- Hs. inversion_clear Hd' as [|? ? _ Hd''].
        assert ((d, t) = (digits, tail)) as Heq by by apply IH.
        by injection Heq as -> ->.
    + split.
      * intros [= <- <-]. split_and!; [done|constructor|done].
      * intros (Hs & Hd & Ht). destruct digits as [|a' digits].
        { change (String a s = tail) in Hs. by subst. }
        change (String a s = String a' (digits +:+ tail)) in Hs.
        injection Hs as <- _. inversion_clear Hd. congruence.
Qed.

(** The matcher decides the pattern and returns its group. *)
Lemma re_match_consumer_id_spec sub digits :
  re_match_consumer_id sub = Some digits ↔ matches_consumer_id sub digits.
Proof.
  unfold re_match_consumer_id, matches_consumer_id. split.
  - destruct (strip_prefix _ sub) as [rest|] eqn:Hp; [|done].
    apply strip_prefix_spec in Hp as ->.
    destruct (span_digits rest) as [d tail] eqn:Hs.
    apply span_digits_spec in Hs as (-> & Hd & _).
    destruct (decide (d = EmptyString)); [done|].
    destruct (decide (tail = EmptyString)) as [->|].
    { intros [= <-]. split_and!; [done..|]. left.
      by rewrite append_empty_r. }
    destruct (decide _) as [->|]; [|done].
    intros [= <-]. split_and!; [done..|]. by right.
  - intros (Hne & Hd & [-> | ->]).
    + rewrite (proj2 (strip_prefix_spec "consumer_id=" _ digits) eq_refl).
      rewrite (proj2 (span_digits_spec digits digits EmptyString)).
      * rewrite decide_False, decide_True by done. done.
      * split_and!; [|done..]. by rewrite append_empty_r.
    + rewrite (proj2 (strip_prefix_spec "consumer_id=" _
                        (String.append digits newline)) eq_refl).
      rewrite (proj2 (span_digits_spec _ digits newline)) by done.
      rewrite decide_False by done. rewrite decide_False by done.
      by rewrite decide_True.
Qed.

Example re_match_consumer_id_examples :
  re_match_consumer_id "consumer_id=0" = Some "0"
  ∧ re_match_consumer_id "consumer_id=17" = Some "17"
  ∧ re_match_consumer_id "id=1" = None
  ∧ re_match_consumer_id "consumer_id=" = None
  ∧ re_match_consumer_id "consumer_id=1x" = None
  ∧ re_match_consumer_id " consumer_id=1" = None
  ∧ int_of_digits "17" = 17
  ∧ int_of_digits "007" = 7.
Proof. split_and!; reflexivity. Qed.

Section Authentication.

Variable secret_key : string.
Variable jwt_decode : string → string → InvalidTokenError + gmap string string.

Local Abbreviation authenticate := (authenticate secret_key jwt_decode).


End Authentication.



(** ** The order of the batch response *)



Section BatchOrder.

Variable PARSER_parsebytes : bytes → Message.
Variable unquote : string → string.
Variable str_strip : string → string.
Variable str_split : string → list string.

Local Abbreviation select_mail_as_json :=
  (select_mail_as_json PARSER_parsebytes unquote str_strip str_split).


End BatchOrder.

(** C3.  The batch response of consumer 1 over the sample store lists the
    mail scheduled at 200 before the mail scheduled at 100: the response is
    not in ascending order of the [next_time] its dispatches held before the
    update. *)
Theorem select_mail_as_json_not_in_schedule_order :
  Resource.id
    <$> delivered (select_mail_as_json sample_parsebytes (λ s, s) (λ s, s)
                     sample_split sample_db 1 1000).1
  = ["second"; "first"]
  ∧ omap (scheduled sample_db 1) ["second"; "first"] = [200; 100]
  ∧ ¬ Sorted Z.le [200; 100].
Proof.
  split_and!; [vm_compute; reflexivity..|].
  intros H. inversion H as [|? ? _ Hd]; subst.
  inversion Hd as [|? ? Hle]; subst. lia.
Qed.

(** ** Ingest of text attachments *)

Section Ingest.

Variable codecs_lookup : string → option Codec.t.
Variable MAGIC_from_buffer : Payload → MagicResult.
Variable content_type_header : string → string * option string.

Local Abbreviation load_attachment :=
  (load_attachment codecs_lookup MAGIC_from_buffer content_type_header).

(** A part whose type after sniffing is textual and whose bytes its codec
    cannot decode is stored with its bytes as they came. *)
Lemma load_attachment_keeps_undecodable_bytes p type code b :
  sniff MAGIC_from_buffer content_type_header p = (type, code) →
  startswith type "text/" = true →
  part_data p = PBytes b →
  bytes_decode codecs_lookup b (code_or_utf8 code) = inl UnicodeDecodeError →
  load_attachment p
  = inr (part_number p,
         {| Attachment.name := Some (part_name p);
            Attachment.type := type;
            Attachment.code := code;
            Attachment.data := b |}).
Proof.
  intros Hsn Ht Hd He. unfold load_attachment. rewrite Hsn.
  unfold decode_text. by rewrite Hd, Ht, He.
Qed.

(** A part whose type after sniffing is textual and whose charset names no
    codec makes the loop body raise [LookupError]. *)
Lemma load_attachment_unknown_charset p type code b :
  sniff MAGIC_from_buffer content_type_header p = (type, code) →
  startswith type "text/" = true →
  part_data p = PBytes b →
  codecs_lookup (code_or_utf8 code) = None →
  load_attachment p = inl LookupError.
Proof.
  intros Hsn Ht Hd Hc. unfold load_attachment. rewrite Hsn.
  unfold decode_text, bytes_decode. by rewrite Hd, Ht, Hc.
Qed.

(** A payload that is text after the decoding step is stored encoded with
    the charset in force before line 49, [code or "utf-8"], and labelled
    [utf-8] when its type is textual. *)
Lemma load_attachment_encodes_with_code p type code s :
  sniff MAGIC_from_buffer content_type_header p = (type, code) →
  decode_text codecs_lookup type code (part_data p) = inr (PStr s) →
  load_attachment p
  = match str_encode codecs_lookup s (code_or_utf8 code) with
    | inl e => inl e
    | inr b =>
      inr (part_number p,
           {| Attachment.name := Some (part_name p);
              Attachment.type := type;
              Attachment.code :=
                if startswith type "text/" then Some "utf-8" else None;
              Attachment.data := b |})
    end.
Proof.
  intros Hsn Hd. unfold load_attachment. rewrite Hsn, Hd. simpl.
  by destruct (str_encode _ _ _).
Qed.

(** Where the charset in force is UTF-8 the stored bytes are the UTF-8
    encoding of the decoded text, and they are the bytes that came in. *)
Lemma load_attachment_utf8 p type code b s :
  codecs_lookup "utf-8" = Some Codec.utf8 →
  sniff MAGIC_from_buffer content_type_header p = (type, code) →
  startswith type "text/" = true →
  part_data p = PBytes b →
  code_or_utf8 code = "utf-8" →
  Codec.utf8_decode b = Some s →
  Codec.utf8_encode s = Some b
  ∧ load_attachment p
    = inr (part_number p,
           {| Attachment.name := Some (part_name p);
              Attachment.type := type;
              Attachment.code := Some "utf-8";
              Attachment.data := b |}).
Proof.
  intros Hu Hsn Ht Hd Hc Hs. pose proof (utf8_decode_encode _ _ Hs) as He.
  split; [done|].
  rewrite (load_attachment_encodes_with_code p type code s Hsn).
  - unfold str_encode. rewrite Hc, Hu. simpl. by rewrite He, Ht.
  - unfold decode_text, bytes_decode. rewrite Hd, Ht, Hc, Hu. simpl.
    by rewrite Hs.
Qed.

(** An [application/octet-stream] part that libmagic takes for UTF-8 text of
    some [text/] type, and whose bytes decode as UTF-8, is stored with that
    type, the code [utf-8] and its bytes as they came. *)
Lemma load_attachment_sniffed_utf8 p b s estimate type :
  codecs_lookup "utf-8" = Some Codec.utf8 →
  part_type p = "application/octet-stream" →
  part_data p = PBytes b →
  MAGIC_from_buffer (PBytes b) = MagicEstimate (Some estimate) →
  content_type_header estimate = (type, Some "utf-8") →
  startswith type "text/" = true →
  Codec.utf8_decode b = Some s →
  load_attachment p
  = inr (part_number p,
         {| Attachment.name := Some (part_name p);
            Attachment.type := type;
            Attachment.code := Some "utf-8";
            Attachment.data := b |}).
Proof.
  intros Hu Hp Hd Hm Hh Ht Hs.
  apply (load_attachment_utf8 p type (Some "utf-8") b s); try done.
  unfold sniff, estimate_type. by rewrite Hp, Hd, Hm, Hh.
Qed.

End Ingest.

(** C6.  For the HTML part declared as ISO 8859-1 the payload becomes the
    one-character text U+00E9; what is stored under the label [utf-8] is the
    byte E9, the ISO 8859-1 encoding, and not C3 A9, the UTF-8 encoding of
    that text; the stored bytes are not UTF-8 at all. *)
Theorem load_attachment_labels_latin_1_bytes_as_utf8 :
  decode_text sample_codecs "text/html" (Some "iso-8859-1") (PBytes [xe9])
  = inr (PStr [233%N])
  ∧ load_attachment sample_codecs sample_magic sample_header latin_1_part
    = inr (0, {| Attachment.name := Some "attachment.html";
                 Attachment.type := "text/html";
                 Attachment.code := Some "utf-8";
                 Attachment.data := [xe9] |})
  ∧ Codec.utf8_encode [233%N] = Some [xc3; xa9]
  ∧ Codec.utf8_decode [xe9] = None.
Proof. split_and!; vm_compute; reflexivity. Qed.

(** C7.  For the HTML part whose charset label is [unknown-8bit] the decode
    raises [LookupError], which is not a [ValueError]: it is not suppressed,
    and [load_mail_record] raises it in place of returning the mail with the
    bytes kept. *)
Theorem load_mail_record_raises_on_unknown_charset :
  bytes_decode sample_codecs [x68; x69] (code_or_utf8 (Some "unknown-8bit"))
  = inl LookupError
  ∧ is_ValueError LookupError = false
  ∧ load_mail_record sample_codecs sample_magic sample_header
      (λ _, sample_message) (λ _, ("", [unknown_8bit_part]))
      (λ s, s) (λ s, s) (sample_bytes "Content-Type: multipart/mixed")
    = inl LookupError.
Proof. split_and!; vm_compute; reflexivity. Qed.

(** ** The scenarios of the test suite, on the sample store *)

Example test_authentication :
  let filter := authenticate "test-secret" sample_jwt_decode sample_db in
  filter unrouted_request = Skip
  ∧ filter (sample_request []) = Respond (reject (sample_request []) [])
  ∧ filter {| routing_exception := false;
              authorization :=
                Some {| authorization_type := "basic";
                        authorization_token := None |};
              host := "localhost"; accept_mimetypes := [] |}
    = Respond (reject (sample_request []) [])
  ∧ filter (bearer_request (Some ""))
    = Respond (reject (sample_request []) [("error", "invalid_request")])
  ∧ filter (bearer_request (Some "other-secret"))
    = Respond (reject (sample_request []) [("error", "invalid_token")])
  ∧ filter (bearer_request (Some "hs384"))
    = Respond (reject (sample_request []) [("error", "invalid_token")])
  ∧ filter (bearer_request (Some "no-sub"))
    = Respond (reject (sample_request []) [("error", "invalid_token")])
  ∧ filter (bearer_request (Some "sub-id-1"))
    = Respond (reject (sample_request []) [("error", "invalid_token")])
  ∧ filter (bearer_request (Some "consumer-0")) = Respond Forbidden
  ∧ filter (bearer_request (Some "consumer-1")) = Bind 1.
Proof. split_and!; reflexivity. Qed.

Example test_retrieve_attachment :
  let get accept consumer_id :=
    retrieve_attachment literal_match sample_content_type sample_db
      (sample_request accept) consumer_id "first" 4 in
  get [("text/plain", 1000%N)] 1
  = inr (with_type 200 "text/plain; charset=utf-8"
           (BodyBytes (sample_bytes "hello")))
  ∧ get [("application/octet-stream", 1000%N)] 1
    = inr (with_type 200 "application/octet-stream"
             (BodyBytes (sample_bytes "hello")))
  ∧ get [] 1
    = inr (with_type 200 "application/json"
             (BodyAttachment
                {| Resource.attachment_mail_id := "first";
                   Resource.attachment_number := 4;
                   Resource.attachment_name := Some "test-attachment.txt";
                   Resource.attachment_type := "text/plain";
                   Resource.attachment_code := Some "utf-8" |}))
  ∧ get [("none/plain", 1000%N)] 1 = inr Not_Acceptable
  ∧ retrieve_attachment literal_match sample_content_type sample_db
      (sample_request []) 1 "third" 4 = inr Not_Found.
Proof. split_and!; vm_compute; reflexivity. Qed.

Example test_select_mail_accept_json :
  let get db :=
    select_mail literal_match sample_parsebytes (λ s, s) (λ s, s)
      sample_split db (sample_request [("application/json", 1000%N)]) 1 in
  delivered (get (get sample_db 1000).2 2000).1 = []
  ∧ Resource.id <$> delivered (get (get sample_db 1000).2 (2000 + hour)).1
    = ["second"; "first"].
Proof. split; vm_compute; reflexivity. Qed.

(** The drain of the stream, unlike the batch, hands out the two due mails
    of consumer 1 in the order of their stored [next_time]. *)
Example test_select_mail_accept_stream :
  omap (λ e, match e with
             | Yielded r => Some (Resource.id r)
             | _ => None
             end) sample_run.2
  = ["first"; "second"]
  ∧ phase sample_run.1 = Waiting.
Proof. split; vm_compute; reflexivity. Qed.

Example test_delete_mail :
  (delete_mail sample_db 1 "first").1 = make (BodyText "") 200
  ∧ (delete_mail (delete_mail sample_db 1 "first").2 1 "first").1 = Not_Found
  ∧ retrieve_mail literal_match sample_content_type sample_parsebytes
      (λ s, s) (λ s, s) sample_split (delete_mail sample_db 1 "first").2
      (sample_request [("text/plain", 1000%N)]) 1 "first" = inr Not_Found
  ∧ ∃ r, retrieve_mail literal_match sample_content_type sample_parsebytes
           (λ s, s) (λ s, s) sample_split (delete_mail sample_db 1 "first").2
           (sample_request [("text/plain", 1000%N)]) 2 "first" = inr r
         ∧ status r = 200.
Proof.
  split_and!; [vm_compute; reflexivity..|].
  eexists. split; [vm_compute; reflexivity|reflexivity].
Qed.

(** * Further properties *)

(** ** [unroll] *)

Local Abbreviation unroll_step :=
  (λ (result : list Resource.Target) (address : Address),
     if decide (target_of address ∈ result)
     then result else result ++ [target_of address]).

Lemma unroll_cons_from (acc : list Resource.Target) (l : list Address) :
  foldl unroll_step acc l
  = acc ++ filter (λ t, t ∉ acc) (foldl unroll_step [] l).
Proof.
  revert acc. induction l as [|a l IH]; intros acc; cbn [foldl].
  { by rewrite app_nil_r. }
  rewrite (decide_False (P := target_of a ∈ [])) by apply not_elem_of_nil.
  cbn [app]. rewrite (IH [target_of a]).
  destruct (decide (target_of a ∈ acc)) as [Hin|Hin].
  - rewrite (IH acc). f_equal. cbn [app].
    rewrite filter_cons, decide_False by (intros H; by apply H).
    rewrite list_filter_filter. apply list_filter_iff. intros t. split.
    + intros Ht. split; [done|]. intros ->%list_elem_of_singleton. done.
    + by intros [Ht _].
  - rewrite (IH (acc ++ [target_of a])).
    rewrite <- (assoc_L (++)). f_equal. cbn [app].
    rewrite filter_cons, decide_True by done. f_equal.
    rewrite list_filter_filter. apply list_filter_iff. intros t.
    rewrite elem_of_app, !list_elem_of_singleton. tauto.
Qed.

Lemma unroll_from_elem (acc : list Resource.Target) (l : list Address) t :
  t ∈ foldl unroll_step acc l ↔ t ∈ acc ∨ t ∈ target_of <$> l.
Proof.
  revert acc. induction l as [|a l IH]; intros acc; cbn [foldl fmap list_fmap].
  { rewrite elem_of_nil. tauto. }
  rewrite IH, elem_of_cons. destruct (decide (target_of a ∈ acc)) as [Hin|Hin].
  - split; [tauto|]. intros [?|[->|?]]; tauto.
  - rewrite elem_of_app, list_elem_of_singleton. tauto.
Qed.

Lemma unroll_from_NoDup (acc : list Resource.Target) (l : list Address) :
  NoDup acc → NoDup (foldl unroll_step acc l).
Proof.
  revert acc. induction l as [|a l IH]; intros acc Hacc; cbn [foldl]; [done|].
  apply IH. destruct (decide (target_of a ∈ acc)) as [Hin|Hin]; [done|].
  apply NoDup_app. split_and!; [done| |apply NoDup_singleton].
  intros t Ht ->%list_elem_of_singleton. done.
Qed.

(** X1.  [unroll] lists every address of the header once, and only those;
    unrolling two lists of addresses in a row keeps the targets of the first
    in their order and appends those of the second that the first does not
    have, so that of equal addresses the first occurrence stays. *)
Theorem unroll_keeps_first_occurrences (l1 l2 : list Address) :
  NoDup (unroll l1)
  ∧ (∀ t, t ∈ unroll l1 ↔ ∃ a, a ∈ l1 ∧ t = target_of a)
  ∧ unroll (l1 ++ l2)
    = unroll l1 ++ filter (λ t, t ∉ unroll l1) (unroll l2)
  ∧ (∀ a, unroll (a :: l2)
          = target_of a :: filter (λ t, t ≠ target_of a) (unroll l2)).
Proof.
  unfold unroll. cbv zeta. split_and!.
  - apply unroll_from_NoDup. constructor.
  - intros t. rewrite unroll_from_elem, elem_of_nil, list_elem_of_fmap.
    split; [intros [[]|(a & -> & Ha)]; eauto|intros (a & Ha & ->); eauto].
  - by rewrite foldl_app, unroll_cons_from.
  - intros a. cbn [foldl]. rewrite decide_False by apply not_elem_of_nil.
    rewrite unroll_cons_from. simpl. f_equal.
    apply list_filter_iff. intros t. by rewrite list_elem_of_singleton.
Qed.

(** ** [load_mail_record] *)

Lemma mapM_inr {A B} (f : A → Exception + B) (l : list A) (k : list B) :
  mapM f l = inr k ↔ Forall2 (λ x y, f x = inr y) l k.
Proof.
  revert k. induction l as [|x l IH]; intros k; simpl.
  - split; [intros [= <-]; constructor|by intros ->%Forall2_nil_inv_l].
  - destruct (f x) as [e|y] eqn:Hx; simpl.
    + split; [done|]. intros (y & k' & Hy & _ & _)%Forall2_cons_inv_l.
      congruence.
    + destruct (mapM f l) as [e|k'] eqn:Hl; simpl.
      * split; [done|]. intros (y' & k' & _ & Hk & _)%Forall2_cons_inv_l.
        by apply IH in Hk.
      * split.
        -- intros [= <-]. constructor; [done|]. by apply IH.
        -- intros (y' & k'' & Hy & Hk & ->)%Forall2_cons_inv_l.
           apply IH in Hk as [= ->]. rewrite Hx in Hy. by injection Hy as ->.
Qed.

Lemma mapM_inl {A B} (f : A → Exception + B) (l : list A) (e : Exception) :
  mapM f l = inl e ↔
  ∃ l1 x l2, l = l1 ++ x :: l2
             ∧ Forall (λ y, ∃ v, f y = inr v) l1
             ∧ f x = inl e.
Proof.
  induction l as [|x l IH]; simpl.
  { split; [done|]. intros (l1 & x & l2 & Hl & _). by destruct l1. }
  split.
  - destruct (f x) as [e'|y] eqn:Hx; simpl.
    { intros [= ->]. exists [], x, l. split_and!; [done|constructor|done]. }
    destruct (mapM f l) as [e'|k'] eqn:Hl; simpl; [|done].
    intros [= ->]. destruct (proj1 IH eq_refl) as (l1 & x0 & l2 & -> & Hok & He).
    exists (x :: l1), x0, l2. split_and!; [done| |done].
    constructor; eauto.
  - intros ([|x' l1] & x0 & l2 & Hl & Hok & He).
    { injection Hl as <- <-. by rewrite He. }
    injection Hl as <- ->. apply Forall_cons in Hok as [[v Hv] Hok].
    rewrite Hv. simpl.
    assert (mapM f (l1 ++ x0 :: l2) = inl e) as ->; [|done].
    apply IH. eauto 6.
Qed.

Section Record.

Variable codecs_lookup : string → option Codec.t.
Variable MAGIC_from_buffer : Payload → MagicResult.
Variable content_type_header : string → string * option string.
Variable PARSER_parsebytes : bytes → Message.
Variable Scrubber_scrub : Message → string * list Part.
Variable unquote : string → string.
Variable str_strip : string → string.

Local Abbreviation sniff := (sniff MAGIC_from_buffer content_type_header).
Local Abbreviation load_attachment :=
  (load_attachment codecs_lookup MAGIC_from_buffer content_type_header).
Local Abbreviation load_mail_record :=
  (load_mail_record codecs_lookup MAGIC_from_buffer content_type_header
     PARSER_parsebytes Scrubber_scrub unquote str_strip).

(** X2.  The loop body of [load_mail_record] raises nothing but
    [LookupError] and [UnicodeEncodeError], never the [UnicodeDecodeError] of
    a failed decode; it raises only for a payload that is text or of a
    textual type, and [LookupError] only when the charset in force names no
    codec. *)
Theorem load_attachment_raises_only_lookup_or_encode p e :
  load_attachment p = inl e →
  (e = LookupError ∨ e = UnicodeEncodeError)
  ∧ (startswith (sniff p).1 "text/" = true ∨ ∃ s, part_data p = PStr s)
  ∧ (e = LookupError → codecs_lookup (code_or_utf8 (sniff p).2) = None).
Proof.
  unfold load_attachment. destruct (sniff p) as [type code]. simpl.
  unfold decode_text, encode_text, bytes_decode, str_encode.
  destruct (part_data p) as [b|s]; simpl.
  - destruct (startswith type "text/") eqn:Ht; simpl; [|done].
    destruct (codecs_lookup (code_or_utf8 code)) as [c|] eqn:Hc; simpl.
    + destruct (Codec.decode c b) as [s|]; simpl; [|done].
      destruct (Codec.encode c s); simpl; [done|].
      intros [= <-]. split_and!; [by right|by left|done].
    + intros [= <-]. split_and!; [by left|by left|done].
  - destruct (codecs_lookup (code_or_utf8 code)) as [c|] eqn:Hc; simpl.
    + destruct (Codec.encode c s); simpl; [done|].
      intros [= <-]. split_and!; [by right|right; by eexists|done].
    + intros [= <-]. split_and!; [by left|right; by eexists|done].
Qed.

Lemma load_attachment_shape p a :
  load_attachment p = inr a →
  a.1 = part_number p
  ∧ Attachment.name a.2 = Some (part_name p)
  ∧ Attachment.type a.2 = (sniff p).1
  ∧ (Attachment.code a.2 ≠ None →
     startswith (Attachment.type a.2) "text/" = true).
Proof.
  unfold load_attachment. destruct (sniff p) as [type code]. simpl.
  destruct (decode_text _ _ _ _) as [e|data]; simpl; [done|].
  destruct (encode_text _ _ _) as [e|[data' code']]; simpl; [done|].
  intros [= <-]. simpl. split_and!; try done.
  by destruct (startswith type "text/").
Qed.

(** X3.  When [load_mail_record] returns, the record keeps the bytes it was
    given, its id is the unquoted [Message-ID] and its date the [Date] of the
    message, its text the stripped text of the scrubber, and its attachments
    are the scrubber's parts one for one and in their order, each with the
    number and name of its part, its type after sniffing, and a code only
    when that type is textual. *)
Theorem load_mail_record_keeps_message_and_parts origin m :
  load_mail_record origin = inr m →
  let message := PARSER_parsebytes origin in
  (∃ message_id, Message_ID message = Some message_id
                 ∧ mail_object_id m = unquote message_id)
  ∧ Date message = Some (Mail.date (mail_object_row m))
  ∧ Mail.text (mail_object_row m) = str_strip (Scrubber_scrub message).1
  ∧ Mail.data (mail_object_row m) = origin
  ∧ Forall2 (λ p a,
       load_attachment p = inr a
       ∧ a.1 = part_number p
       ∧ Attachment.name a.2 = Some (part_name p)
       ∧ Attachment.type a.2 = (sniff p).1
       ∧ (Attachment.code a.2 ≠ None →
          startswith (Attachment.type a.2) "text/" = true))
      (Scrubber_scrub message).2 (mail_object_attachments m).
Proof.
  intros H. cbv zeta. unfold load_mail_record in H. cbv zeta in H.
  destruct (Message_ID (PARSER_parsebytes origin)) as [mid|]; simpl in *;
    [|done].
  destruct (Date (PARSER_parsebytes origin)) as [date|]; simpl in *; [|done].
  destruct (Scrubber_scrub (PARSER_parsebytes origin)) as [text parts].
  destruct (mapM _ parts) as [e|attachments] eqn:Hparts; simpl in *; [done|].
  injection H as <-. simpl. split_and!; try done; [by eexists|].
  apply mapM_inr in Hparts. eapply Forall2_impl; [done|].
  intros p a Ha. split; [done|]. by apply load_attachment_shape.
Qed.

(** X4.  [load_mail_record] raises [TypeError] exactly when the message has
    no [Message-ID], [AttributeError] exactly when it has one but no [Date],
    and otherwise only what the first part that fails to load raises, after
    every part before it has loaded. *)
Theorem load_mail_record_raises origin e :
  load_mail_record origin = inl e ↔
  let message := PARSER_parsebytes origin in
  (Message_ID message = None ∧ e = TypeError)
  ∨ (is_Some (Message_ID message) ∧ Date message = None
     ∧ e = AttributeError)
  ∨ (is_Some (Message_ID message) ∧ is_Some (Date message)
     ∧ ∃ l1 p l2,
         (Scrubber_scrub message).2 = l1 ++ p :: l2
         ∧ Forall (λ q, ∃ a, load_attachment q = inr a) l1
         ∧ load_attachment p = inl e).
Proof.
  unfold load_mail_record. cbv zeta.
  destruct (Message_ID (PARSER_parsebytes origin)) as [mid|]; simpl.
  2:{ split.
      - intros [= <-]. by left.
      - intros [[_ ->]|[([? [=]] & _)|([? [=]] & _)]]. done. }
  destruct (Date (PARSER_parsebytes origin)) as [date|]; simpl.
  2:{ split.
      - intros [= <-]. right. left. split_and!; [by eexists|done..].
      - intros [[[=] _]|[(_ & _ & ->)|(_ & [? [=]] & _)]]. done. }
  destruct (Scrubber_scrub (PARSER_parsebytes origin)) as [text parts]. simpl.
  destruct (mapM _ parts) as [e'|attachments] eqn:Hparts; simpl.
  - split.
    + intros [= <-]. right. right. split_and!; [by eexists..|].
      by apply mapM_inl.
    + intros [[[=] _]|[(_ & [=] & _)|(_ & _ & He)]].
      apply mapM_inl in He. congruence.
  - split; [done|].
    intros [[[=] _]|[(_ & [=] & _)|(_ & _ & He)]].
    apply mapM_inl in He. congruence.
Qed.

End Record.

Lemma load_attachment_raises_only_lookup_or_encode_witness :
  load_attachment sample_codecs sample_magic sample_header unknown_8bit_part
  = inl LookupError
  ∧ (LookupError = LookupError ∨ LookupError = UnicodeEncodeError).
Proof.
  assert (H : load_attachment sample_codecs sample_magic sample_header
                unknown_8bit_part = inl LookupError) by reflexivity.
  split; [exact H|].
  exact (proj1 (load_attachment_raises_only_lookup_or_encode sample_codecs
                  sample_magic sample_header unknown_8bit_part LookupError H)).
Defined.

Lemma load_mail_record_keeps_message_and_parts_witness :
  ∃ m,
    load_mail_record sample_codecs sample_magic sample_header
      (λ _, sample_message) (λ _, ("", [latin_1_part])) (λ s, s) (λ s, s)
      (sample_bytes "Content-Type: multipart/mixed") = inr m
    ∧ Mail.data (mail_object_row m)
      = sample_bytes "Content-Type: multipart/mixed".
Proof.
  destruct (load_mail_record sample_codecs sample_magic sample_header
              (λ _, sample_message) (λ _, ("", [latin_1_part])) (λ s, s)
              (λ s, s) (sample_bytes "Content-Type: multipart/mixed"))
    as [e|m] eqn:H.
  { vm_compute in H. discriminate H. }
  exists m. split; [reflexivity|].
  exact (proj1 (proj2 (proj2 (proj2
           (load_mail_record_keeps_message_and_parts sample_codecs
              sample_magic sample_header (λ _, sample_message)
              (λ _, ("", [latin_1_part])) (λ s, s) (λ s, s) _ m H))))).
Defined.

(** ** The [attachments] relationship and [GET /mail/{id}] as JSON *)

Lemma order_insert_sorted {A} (key : A → Z) x l :
  StronglySorted (λ a b, key a ≤ key b) l →
  StronglySorted (λ a b, key a ≤ key b) (order_insert key x l).
Proof.
  induction 1 as [|y l Hl IH Hy]; simpl.
  { repeat constructor. }
  destruct (Z.leb_spec (key x) (key y)).
  - constructor; [by constructor|]. constructor; [done|].
    eapply Forall_impl; [done|]. simpl. lia.
  - constructor; [done|].
    apply (Forall_forall (λ b, key y ≤ key b)). intros z Hz.
    rewrite order_insert_perm in Hz. apply elem_of_cons in Hz as [->|Hz]; [lia|].
    by apply (proj1 (Forall_forall _ _) Hy).
Qed.

Lemma order_by_sorted {A} (key : A → Z) l :
  StronglySorted (λ a b, key a ≤ key b) (order_by key l).
Proof.
  induction l as [|x l IH]; simpl; [constructor|].
  by apply order_insert_sorted.
Qed.

(** The first row of an [ORDER BY key ASC] has the least key. *)
Lemma order_by_head_least {A} (key : A → Z) l x :
  head (order_by key l) = Some x → x ∈ l ∧ ∀ y, y ∈ l → key x ≤ key y.
Proof.
  intros Hx. pose proof (order_by_sorted key l) as Hs.
  destruct (order_by key l) as [|x' l'] eqn:E; simplify_eq/=.
  split.
  - apply (order_by_elem key). rewrite E. left.
  - intros y Hy. apply (order_by_elem key) in Hy. rewrite E in Hy.
    apply StronglySorted_inv in Hs as [_ Hs].
    apply elem_of_cons in Hy as [->|Hy]; [lia|].
    by apply (proj1 (Forall_forall _ _) Hs).
Qed.

Lemma sorted_keys {A} (key : A → Z) l :
  StronglySorted (λ a b, key a ≤ key b) l → StronglySorted Z.le (key <$> l).
Proof.
  induction 1 as [|x l Hl IH Hx]; simpl; constructor; [done|].
  by apply Forall_fmap.
Qed.

Lemma sorted_NoDup_strict (l : list Z) :
  StronglySorted Z.le l → NoDup l → StronglySorted Z.lt l.
Proof.
  induction 1 as [|x l Hl IH Hx]; intros Hnd; constructor.
  - apply IH. by apply NoDup_cons in Hnd as [_ ?].
  - apply NoDup_cons in Hnd as [Hnin _].
    apply Forall_forall. intros y Hy.
    pose proof (proj1 (Forall_forall _ _) Hx y Hy).
    assert (x ≠ y) by (intros ->; done). lia.
Qed.

Lemma Mail_attachments_elem db id n a :
  (n, a) ∈ Mail_attachments db id ↔ attachment db !! (id, n) = Some a.
Proof.
  unfold Mail_attachments. rewrite order_by_elem, list_elem_of_fmap. split.
  - intros ([[id' n'] a'] & [= -> ->] & Hin).
    apply elem_of_map_to_list, map_lookup_filter_Some in Hin as [Hin Hid].
    simpl in Hid. by subst.
  - intros Hin. exists ((id, n), a). split; [done|].
    by apply elem_of_map_to_list, map_lookup_filter_Some.
Qed.

Lemma Mail_attachments_NoDup db id : NoDup (fst <$> Mail_attachments db id).
Proof.
  unfold Mail_attachments. rewrite order_by_perm, <- list_fmap_compose.
  eapply (NoDup_fmap_2_strong _ (map_to_list _)); [|apply NoDup_map_to_list].
  intros [[id1 n1] a1] [[id2 n2] a2] H1 H2 Hn. simpl in Hn. subst n2.
  apply elem_of_map_to_list, map_lookup_filter_Some in H1 as [H1 Hid1].
  apply elem_of_map_to_list, map_lookup_filter_Some in H2 as [H2 Hid2].
  simpl in *. subst. congruence.
Qed.

(** X5.  The [attachments] relationship of a mail holds the attachments
    stored under that mail, all of them and no other, each once, in strictly
    ascending order of [number]. *)
Theorem Mail_attachments_ascending db id :
  (∀ n a, (n, a) ∈ Mail_attachments db id
          ↔ attachment db !! (id, n) = Some a)
  ∧ StronglySorted Z.lt (fst <$> Mail_attachments db id).
Proof.
  split; [apply Mail_attachments_elem|].
  apply sorted_NoDup_strict; [|apply Mail_attachments_NoDup].
  apply sorted_keys. unfold Mail_attachments. apply order_by_sorted.
Qed.

Lemma one_or_none_Some {A} (rows : list A) x :
  one_or_none rows = inr (Some x) ↔ rows = [x].
Proof.
  destruct rows as [|y [|z rows]]; simpl; split; intros; by simplify_eq.
Qed.

Lemma one_or_none_None {A} (rows : list A) :
  one_or_none rows = inr None ↔ rows = [].
Proof. destruct rows as [|y [|z rows]]; simpl; split; intros; by simplify_eq. Qed.

Lemma select_singleton db consumer_id id m :
  filter_by_id id (Mail_consumer_select db consumer_id) = [m] →
  m.1 = id ∧ has_dispatch db consumer_id id ∧ mail db !! id = Some m.2.
Proof.
  intros Hs. destruct m as [id' row].
  assert (Hin : (id', row)
                ∈ filter_by_id id (Mail_consumer_select db consumer_id))
    by (rewrite Hs; left).
  apply filter_by_id_elem in Hin as [-> Hin].
  by apply consumer_select_elem in Hin as [? ?].
Qed.

Section Retrieval.

Variable best_match : Accept → list string → option string.
Variable get_content_type : string → string → string.
Variable PARSER_parsebytes : bytes → Message.
Variable unquote : string → string.
Variable str_strip : string → string.
Variable str_split : string → list string.

Local Abbreviation retrieve_mail :=
  (retrieve_mail best_match get_content_type PARSER_parsebytes unquote
     str_strip str_split).
Local Abbreviation retrieve_attachment :=
  (retrieve_attachment best_match get_content_type).
Local Abbreviation negotiate := (negotiate best_match).


(** X7.  A 200 answer of the text view is given only to a consumer that has
    the dispatch, and its body is the text whose UTF-8 encoding is exactly
    the stored bytes of the mail of that id. *)
Theorem retrieve_mail_as_text_returns_the_stored_bytes
    db consumer_id id mimetype r :
  retrieve_mail_as_text get_content_type db consumer_id id mimetype = inr r →
  status r = 200 →
  ∃ row data,
    has_dispatch db consumer_id id
    ∧ mail db !! id = Some row
    ∧ body r = BodyStr data
    ∧ Codec.utf8_encode data = Some (Mail.data row)
    ∧ content_type r = Some (get_content_type mimetype "utf-8").
Proof.
  unfold retrieve_mail_as_text.
  destruct (one_or_none _) as [e|[m|]] eqn:Hone; simpl; [done| |].
  - apply one_or_none_Some, select_singleton in Hone as (_ & Hd & Hrow).
    destruct (Codec.utf8_decode (Mail.data m.2)) as [data|] eqn:Hdec; simpl;
      [|done].
    intros [= <-] _. exists m.2, data. split_and!; try done.
    by apply utf8_decode_encode.
  - by intros [= <-].
Qed.

Lemma attachment_select_singleton db consumer_id mail_id number x :
  attachment_select db consumer_id mail_id number = [x] →
  x.1 = (mail_id, number)
  ∧ has_dispatch db consumer_id mail_id
  ∧ attachment db !! (mail_id, number) = Some x.2.
Proof.
  intros Hs. destruct x as [[id' n'] a].
  assert (Hin : (id', n', a)
                ∈ attachment_select db consumer_id mail_id number)
    by (rewrite Hs; left).
  unfold attachment_select in Hin.
  apply list_elem_of_omap in Hin as ([id'' row] & Hin & Ha).
  apply filter_by_id_elem in Hin as [-> Hin].
  apply consumer_select_elem in Hin as [Hd _]. simpl in Ha.
  destruct (attachment db !! (mail_id, number)) as [a'|] eqn:E;
    by simplify_eq/=.
Qed.


(** X9.  For an attachment whose stored type is [application/json] no
    request obtains the metadata resource: the view answers with the stored
    bytes whenever the negotiation chooses [application/json], which is also
    what a request without an Accept header gets. *)
Theorem retrieve_attachment_json_type_hides_metadata
    db request consumer_id mail_id number r :
  (∀ a, attachment db !! (mail_id, number) = Some a →
        Attachment.type a = "application/json") →
  retrieve_attachment db request consumer_id mail_id number = inr r →
  (∀ x, body r ≠ BodyAttachment x)
  ∧ (accept_mimetypes request = [] → r ≠ Not_Found →
     ∃ a, attachment db !! (mail_id, number) = Some a
          ∧ status r = 200 ∧ body r = BodyBytes (Attachment.data a)).
Proof.
  intros Hjson. unfold retrieve_attachment.
  destruct (one_or_none _) as [e|[[[id' n'] a]|]] eqn:Hone; simpl; [done| |].
  2:{ intros [= <-]. split; [done|]. by intros _ []. }
  apply one_or_none_Some, attachment_select_singleton in Hone
    as ([= -> ->] & Hd & Ha). simpl in Ha.
  rewrite (Hjson a Ha). fold (negotiate request).
  destruct (bool_decide (negotiate request _ = Some "application/json"))
    eqn:H1.
  - intros [= <-]. split; [done|]. intros _ _. by exists a.
  - apply bool_decide_eq_false in H1.
    assert (Hacc' : accept_mimetypes request ≠ []).
    { intros Hacc. apply H1. unfold negotiate. by rewrite Hacc. }
    repeat destruct (bool_decide _); intros [= <-]; (split; [done|]);
      intros Hacc; by destruct Hacc'.
Qed.

End Retrieval.

Lemma sample_db_primary_key : dispatch_primary_key sample_db.
Proof.
  apply (bool_decide_eq_true_1 (NoDup (Dispatch.key <$> dispatch sample_db))).
  vm_compute. reflexivity.
Defined.



Lemma retrieve_mail_as_text_returns_the_stored_bytes_witness :
  ∃ r,
    retrieve_mail_as_text sample_content_type sample_db 1 "first"
      "message/rfc822" = inr r
    ∧ status r = 200
    ∧ ∃ data, body r = BodyStr data
              ∧ Codec.utf8_encode data
                = Some (Mail.data (sample_mail "first")).
Proof.
  destruct (retrieve_mail_as_text sample_content_type sample_db 1 "first"
              "message/rfc822") as [e|r] eqn:H.
  { vm_compute in H. discriminate H. }
  assert (Hs : status r = 200).
  { vm_compute in H. injection H as <-. reflexivity. }
  exists r. split; [reflexivity|]. split; [exact Hs|].
  destruct (retrieve_mail_as_text_returns_the_stored_bytes
              sample_content_type sample_db 1 "first" "message/rfc822" r H Hs)
    as (row & data & _ & Hrow & Hb & He & _).
  exists data. split; [exact Hb|].
  assert (row = sample_mail "first") as <-; [|exact He].
  vm_compute in Hrow. injection Hrow as <-. reflexivity.
Defined.


Lemma retrieve_attachment_json_type_hides_metadata_witness :
  ∃ r,
    retrieve_attachment literal_match sample_content_type sample_json_db
      (sample_request []) 1 "first" 5 = inr r
    ∧ ∀ x, body r ≠ BodyAttachment x.
Proof.
  destruct (retrieve_attachment literal_match sample_content_type
              sample_json_db (sample_request []) 1 "first" 5)
    as [e|r] eqn:H.
  { vm_compute in H. discriminate H. }
  exists r. split; [reflexivity|].
  refine (proj1 (retrieve_attachment_json_type_hides_metadata literal_match
                   sample_content_type sample_json_db (sample_request []) 1
                   "first" 5 r _ H)).
  intros a Ha. vm_compute in Ha. injection Ha as <-. reflexivity.
Defined.

(** ** Who [authenticate] lets in *)

Local Abbreviation digit_step :=
  (λ (n : Z) (a : ascii), 10 * n + (Z.of_nat (nat_of_ascii a) - 48)).

Ltac digit_value :=
  match goal with
  | |- context [Z.of_nat (nat_of_ascii ?a)] =>
    let v := eval vm_compute in (Z.of_nat (nat_of_ascii a)) in
    change (Z.of_nat (nat_of_ascii a)) with v
  end.

Lemma of_uint_acc_digits d acc :
  fold_left digit_step (list_ascii_of_string (NilEmpty.string_of_uint d))
    (Z.pos acc)
  = Z.pos (Pos.of_uint_acc d acc).
Proof.
  revert acc. induction d; intros acc; simpl; [done|..];
    rewrite <- IHd; f_equal; digit_value; lia.
Qed.

Lemma of_uint_digits d :
  int_of_digits (NilEmpty.string_of_uint d) = Z.of_N (N.of_uint d).
Proof.
  unfold int_of_digits, N.of_uint.
  induction d; simpl; [done|exact IHd|..];
    exact (of_uint_acc_digits d 1%positive)
    || (rewrite <- (of_uint_acc_digits d); f_equal).
Qed.

Lemma string_of_uint_digits d : all_digits (NilEmpty.string_of_uint d).
Proof. unfold all_digits. induction d; simpl; by constructor. Qed.

Lemma str_of_N_nonempty n : str_of_N n ≠ EmptyString.
Proof.
  unfold str_of_N. destruct n as [|p]; [done|]. simpl.
  pose proof (DecimalPos.Unsigned.to_uint_nonnil p) as Hp.
  by destruct (Pos.to_uint p).
Qed.

(** The decimal digits of a number are read back as that number, and they
    match the group of the pattern. *)
Lemma str_of_N_matches n :
  matches_consumer_id (String.append "consumer_id=" (str_of_N n)) (str_of_N n)
  ∧ int_of_digits (str_of_N n) = Z.of_N n.
Proof.
  split.
  - split; [apply str_of_N_nonempty|]. split; [|by left].
    apply string_of_uint_digits.
  - unfold str_of_N. by rewrite of_uint_digits, DecimalN.Unsigned.of_to.
Qed.

Section Admission.

Variable secret_key : string.
Variable jwt_decode : string → string → InvalidTokenError + gmap string string.

Local Abbreviation authenticate := (authenticate secret_key jwt_decode).

(** X10.  [authenticate] binds [g.consumer] only on a routed request that
    carries a non-empty bearer token which [jwt.decode] accepts and whose
    [sub] matches the pattern; the consumer it binds is the one whose id is
    the number in [sub], and that consumer exists. *)
Theorem authenticate_binds_only_existing_consumers db request c :
  authenticate db request = Bind c →
  routing_exception request = false
  ∧ is_Some (consumer db !! c)
  ∧ ∃ a token data sub digits,
      authorization request = Some a
      ∧ authorization_type a = "bearer"
      ∧ authorization_token a = Some token
      ∧ token ≠ ""
      ∧ jwt_decode token secret_key = inr data
      ∧ data !! "sub" = Some sub
      ∧ matches_consumer_id sub digits
      ∧ c = int_of_digits digits.
Proof.
  unfold authenticate.
  destruct (routing_exception request); [done|].
  destruct (authorization request) as [a|]; [|done].
  destruct (bool_decide (authorization_type a = "bearer")) eqn:Ht; [|done].
  apply bool_decide_eq_true in Ht. simpl.
  destruct (authorization_token a) as [token|] eqn:Htok; [|done].
  destruct (decide (token = "")) as [|Hne]; [done|].
  destruct (jwt_decode token secret_key) as [e|data] eqn:Hj; [done|].
  destruct (data !! "sub") as [sub|] eqn:Hsub; [|done].
  destruct (re_match_consumer_id sub) as [digits|] eqn:Hm; [|done].
  apply re_match_consumer_id_spec in Hm.
  destruct (consumer db !! int_of_digits digits) as [x|] eqn:Hc; [|done].
  intros [= <-]. split; [done|]. split; [by eexists|].
  exists a, token, data, sub, digits.
  exact (conj eq_refl (conj Ht (conj Htok (conj Hne (conj Hj
           (conj Hsub (conj Hm eq_refl))))))).
Qed.

(** X11.  A token whose [sub] is [consumer_id=] followed by the decimal
    digits of the id of an existing consumer, as the test client mints it,
    binds exactly that consumer. *)
Theorem authenticate_accepts_minted_token db request a token data n :
  routing_exception request = false →
  authorization request = Some a →
  authorization_type a = "bearer" →
  authorization_token a = Some token →
  token ≠ "" →
  jwt_decode token secret_key = inr data →
  data !! "sub" = Some (String.append "consumer_id=" (str_of_N n)) →
  is_Some (consumer db !! Z.of_N n) →
  authenticate db request = Bind (Z.of_N n).
Proof.
  intros Hr Ha Ht Htok Hne Hj Hsub [x Hc]. unfold authenticate.
  rewrite Hr, Ha, bool_decide_eq_true_2 by done. simpl.
  rewrite Htok, decide_False, Hj, Hsub by done.
  destruct (str_of_N_matches n) as [Hm Hi].
  apply re_match_consumer_id_spec in Hm. rewrite Hm, Hi, Hc. done.
Qed.

End Admission.

Lemma authenticate_binds_only_existing_consumers_witness :
  authenticate "test-secret" sample_jwt_decode sample_db
    (bearer_request (Some "consumer-1")) = Bind 1
  ∧ is_Some (consumer sample_db !! 1).
Proof.
  assert (H : authenticate "test-secret" sample_jwt_decode sample_db
                (bearer_request (Some "consumer-1")) = Bind 1)
    by reflexivity.
  split; [exact H|].
  exact (proj1 (proj2 (authenticate_binds_only_existing_consumers
                         "test-secret" sample_jwt_decode sample_db
                         (bearer_request (Some "consumer-1")) 1 H))).
Defined.

Lemma authenticate_accepts_minted_token_witness :
  authenticate "test-secret" sample_jwt_decode sample_db
    (bearer_request (Some "consumer-1")) = Bind (Z.of_N 1).
Proof.
  apply (authenticate_accepts_minted_token "test-secret" sample_jwt_decode
           sample_db (bearer_request (Some "consumer-1"))
           {| authorization_type := "bearer";
              authorization_token := Some "consumer-1" |}
           "consumer-1" {["sub" := "consumer_id=1"]} 1%N).
  - reflexivity.
  - reflexivity.
  - reflexivity.
  - reflexivity.
  - discriminate.
  - reflexivity.
  - reflexivity.
  - eexists. reflexivity.
Defined.

(** ** What [delete_mail] leaves behind *)






Section Revocation.

Variable best_match : Accept → list string → option string.
Variable get_content_type : string → string → string.
Variable PARSER_parsebytes : bytes → Message.
Variable unquote : string → string.
Variable str_strip : string → string.
Variable str_split : string → list string.

Local Abbreviation retrieve_mail :=
  (retrieve_mail best_match get_content_type PARSER_parsebytes unquote
     str_strip str_split).
Local Abbreviation retrieve_attachment :=
  (retrieve_attachment best_match get_content_type).


End Revocation.

(** ** What a delivery changes in the store *)

Lemma reschedules_refl db : reschedules db db.
Proof. by repeat split. Qed.

Lemma reschedules_trans db1 db2 db3 :
  reschedules db1 db2 → reschedules db2 db3 → reschedules db1 db3.
Proof.
  intros (Hm & Ha & Hc & Hk) (Hm' & Ha' & Hc' & Hk').
  repeat split; congruence.
Qed.

Lemma reschedules_primary_key db db' :
  reschedules db db' → dispatch_primary_key db → dispatch_primary_key db'.
Proof. intros (_ & _ & _ & Hk). unfold dispatch_primary_key. by rewrite Hk. Qed.

Lemma reschedules_to_mail db db' :
  reschedules db db' → dispatch_to_mail db → dispatch_to_mail db'.
Proof.
  intros (Hm & _ & _ & Hk) Hfk d' Hd'.
  assert (Hin : Dispatch.key d' ∈ Dispatch.key <$> dispatch db).
  { rewrite <- Hk. by apply list_elem_of_fmap_2. }
  apply list_elem_of_fmap in Hin as (d & Hkd & Hd).
  assert (Hid : Dispatch.mail_id d' = Dispatch.mail_id d)
    by (unfold Dispatch.key in Hkd; congruence).
  rewrite Hm, Hid. by apply Hfk.
Qed.

Lemma consumer_select_keys db db' consumer :
  mail db' = mail db →
  Dispatch.key <$> dispatch db' = Dispatch.key <$> dispatch db →
  Mail_consumer_select db' consumer = Mail_consumer_select db consumer.
Proof.
  destruct db as [m a c ds], db' as [m' a' c' ds']. simpl. intros -> Hk.
  revert ds' Hk. induction ds as [|d ds IH]; intros [|d' ds'] Hk; try done.
  rewrite !fmap_cons in Hk. injection Hk as Hc Hi Hk.
  rewrite !consumer_select_cons, Hc, Hi. f_equal. by apply IH.
Qed.

Lemma dispatch_update_reschedules db consumer now :
  reschedules db
    (with_dispatch db
       ((λ d, if decide (due consumer now d)
              then Dispatch_advance now d else d) <$> dispatch db)).
Proof.
  repeat split. simpl. rewrite <- list_fmap_compose.
  apply list_fmap_ext. intros i d _. simpl.
  destruct (decide (due consumer now d)); [apply Dispatch_advance_key|done].
Qed.

Lemma flush_advance_reschedules now d db :
  reschedules db (flush_advance now d db).
Proof.
  repeat split. simpl. rewrite <- list_fmap_compose.
  apply list_fmap_ext. intros i r _. simpl.
  destruct (decide (Dispatch.key r = Dispatch.key d));
    [apply Dispatch_advance_key|done].
Qed.

Section Frame.

Variable best_match : Accept → list string → option string.
Variable get_content_type : string → string → string.
Variable PARSER_parsebytes : bytes → Message.
Variable unquote : string → string.
Variable str_strip : string → string.
Variable str_split : string → list string.

Local Abbreviation retrieve_mail :=
  (retrieve_mail best_match get_content_type PARSER_parsebytes unquote
     str_strip str_split).
Local Abbreviation retrieve_attachment :=
  (retrieve_attachment best_match get_content_type).
Local Abbreviation select_mail :=
  (select_mail best_match PARSER_parsebytes unquote str_strip str_split).
Local Abbreviation stream_mail :=
  (stream_mail PARSER_parsebytes unquote str_strip str_split).
Local Abbreviation stream_mail_run :=
  (stream_mail_run PARSER_parsebytes unquote str_strip str_split).

Lemma reschedules_retrieve_mail db db' request consumer id :
  reschedules db db' →
  retrieve_mail db' request consumer id = retrieve_mail db request consumer id.
Proof.
  intros (Hm & Ha & _ & Hk).
  unfold retrieve_mail, retrieve_mail_as_text, retrieve_mail_as_json,
    Mail_attachments.
  cbv zeta. by rewrite (consumer_select_keys db db' consumer Hm Hk), Ha.
Qed.

Lemma reschedules_retrieve_attachment db db' request consumer id number :
  reschedules db db' →
  retrieve_attachment db' request consumer id number
  = retrieve_attachment db request consumer id number.
Proof.
  intros (Hm & Ha & _ & Hk). unfold retrieve_attachment, attachment_select.
  by rewrite (consumer_select_keys db db' consumer Hm Hk), Ha.
Qed.

Lemma select_mail_store db request consumer now :
  (select_mail db request consumer now).2
  = if bool_decide
         (negotiate best_match request
            ["application/json"; "application/x-ndjson"]
          = Some "application/json")
    then with_dispatch db
           ((λ d, if decide (due consumer now d)
                  then Dispatch_advance now d else d) <$> dispatch db)
    else db.
Proof.
  unfold select_mail.
  destruct (bool_decide (_ = Some "application/json")); [done|].
  by destruct (bool_decide _).
Qed.

(** X13.  [GET /mail] changes nothing but the schedule of the rows it
    delivers: the mail, attachment and consumer tables and the keys of the
    dispatch rows stay, so the primary and foreign key of [dispatch] are
    preserved and every [retrieve_mail] and [retrieve_attachment] answers as
    before; a row that is not a due row of this consumer is left as it is;
    and unless JSON is negotiated the store is not touched at all. *)
Theorem select_mail_only_reschedules db request consumer now :
  reschedules db (select_mail db request consumer now).2
  ∧ (dispatch_primary_key db →
     dispatch_primary_key (select_mail db request consumer now).2)
  ∧ (dispatch_to_mail db →
     dispatch_to_mail (select_mail db request consumer now).2)
  ∧ (∀ request' consumer' id,
       retrieve_mail (select_mail db request consumer now).2 request'
         consumer' id
       = retrieve_mail db request' consumer' id)
  ∧ (∀ request' consumer' id number,
       retrieve_attachment (select_mail db request consumer now).2 request'
         consumer' id number
       = retrieve_attachment db request' consumer' id number)
  ∧ (∀ i d,
       dispatch db !! i = Some d →
       ¬ due consumer now d →
       dispatch (select_mail db request consumer now).2 !! i = Some d)
  ∧ (negotiate best_match request
       ["application/json"; "application/x-ndjson"]
     ≠ Some "application/json" →
     (select_mail db request consumer now).2 = db).
Proof.
  assert (Hr : reschedules db (select_mail db request consumer now).2).
  { rewrite select_mail_store. destruct (bool_decide _);
      [apply dispatch_update_reschedules|apply reschedules_refl]. }
  split; [exact Hr|].
  split; [by apply reschedules_primary_key|].
  split; [by apply reschedules_to_mail|].
  split; [intros; by apply reschedules_retrieve_mail|].
  split; [intros; by apply reschedules_retrieve_attachment|].
  split.
  - intros i d Hi Hd. rewrite select_mail_store.
    destruct (bool_decide _); [|done]. simpl.
    rewrite list_lookup_fmap, Hi. simpl. by rewrite decide_False.
  - intros Hn. rewrite select_mail_store. by rewrite bool_decide_eq_false_2.
Qed.

End Frame.


Lemma select_mail_only_reschedules_witness :
  dispatch_primary_key
    (select_mail literal_match sample_parsebytes (λ s, s) (λ s, s)
       sample_split sample_db
       (sample_request [("application/json", 1000%N)]) 1 1000).2.
Proof.
  apply (select_mail_only_reschedules literal_match sample_content_type
           sample_parsebytes (λ s, s) (λ s, s) sample_split sample_db
           (sample_request [("application/json", 1000%N)]) 1 1000).
  exact sample_db_primary_key.
Defined.

(** ** What a batch carries *)


Section Batch.

Variable best_match : Accept → list string → option string.
Variable PARSER_parsebytes : bytes → Message.
Variable unquote : string → string.
Variable str_strip : string → string.
Variable str_split : string → list string.

Local Abbreviation select_mail :=
  (select_mail best_match PARSER_parsebytes unquote str_strip str_split).


(** X15.  Under the primary key, a mail that a batch delivered at [now] is
    in no batch the same consumer asks for before [now + 1h]. *)
Theorem select_mail_does_not_redeliver_within_the_hour
    db request request' consumer now now' r r' :
  dispatch_primary_key db →
  now' < now + hour →
  r ∈ delivered (select_mail db request consumer now).1 →
  r' ∈ delivered
         (select_mail (select_mail db request consumer now).2 request'
            consumer now').1 →
  Resource.id r' ≠ Resource.id r.
Proof.
  intros Hpk Hlt Hr Hr' Hid.
  apply select_mail_delivered_store in Hr as Hstore. rewrite Hstore in Hr'.
  apply select_mail_delivered in Hr as (d0 & Hd0 & Hdue0 & Hid0).
  apply select_mail_delivered in Hr' as (d1 & Hd1 & Hdue1 & Hid1).
  simpl in Hd1. apply list_elem_of_fmap in Hd1 as (d & -> & Hd).
  destruct (decide (due consumer now d)) as [Hdue|Hnot].
  - destruct Hdue1 as [_ Hle]. simpl in Hle. lia.
  - apply Hnot. assert (d = d0) as ->; [|done].
    apply (primary_key_inj (dispatch db)); [done..|].
    destruct Hdue0 as [Hc0 _], Hdue1 as [Hc1 _]. unfold Dispatch.key.
    congruence.
Qed.

End Batch.



Lemma select_mail_does_not_redeliver_within_the_hour_witness :
  sample_resource "first"
    ∈ delivered (select_mail literal_match sample_parsebytes (λ s, s)
                   (λ s, s) sample_split sample_db
                   (sample_request [("application/json", 1000%N)]) 1 1000).1
  ∧ ∀ r',
      r' ∈ delivered
             (select_mail literal_match sample_parsebytes (λ s, s) (λ s, s)
                sample_split
                (select_mail literal_match sample_parsebytes (λ s, s)
                   (λ s, s) sample_split sample_db
                   (sample_request [("application/json", 1000%N)]) 1 1000).2
                (sample_request [("application/json", 1000%N)]) 1 2000).1 →
      Resource.id r' ≠ Resource.id (sample_resource "first").
Proof.
  assert (Hr : sample_resource "first"
    ∈ delivered (select_mail literal_match sample_parsebytes (λ s, s)
                   (λ s, s) sample_split sample_db
                   (sample_request [("application/json", 1000%N)]) 1 1000).1).
  { vm_compute. apply list_elem_of_further, list_elem_of_here. }
  split; [exact Hr|].
  intros r' Hr'.
  apply (select_mail_does_not_redeliver_within_the_hour literal_match
           sample_parsebytes (λ s, s) (λ s, s) sample_split sample_db
           (sample_request [("application/json", 1000%N)])
           (sample_request [("application/json", 1000%N)]) 1 1000 2000
           (sample_resource "first") r').
  - exact sample_db_primary_key.
  - reflexivity.
  - exact Hr.
  - exact Hr'.
Defined.

(** ** The drain loop and the notification loop of [stream_mail] *)

Lemma scalar_take_1 {A} (l : list A) : scalar (take 1 l) = head l.
Proof. by destruct l. Qed.


Section Loops.

Variable PARSER_parsebytes : bytes → Message.
Variable unquote : string → string.
Variable str_strip : string → string.
Variable str_split : string → list string.

Local Abbreviation load_mail_resource :=
  (load_mail_resource PARSER_parsebytes unquote str_strip str_split).
Local Abbreviation deliver :=
  (deliver PARSER_parsebytes unquote str_strip str_split).
Local Abbreviation stream_mail :=
  (stream_mail PARSER_parsebytes unquote str_strip str_split).
Local Abbreviation stream_mail_run :=
  (stream_mail_run PARSER_parsebytes unquote str_strip str_split).

Lemma deliver_spec db now d next :
  deliver db now d next
  = match mail db !! Dispatch.mail_id d with
    | None =>
      ({| phase := Closed;
          session := {| store := db; transaction := None |} |},
       [Raised AttributeError])
    | Some row =>
      ({| phase := next;
          session := {| store := flush_advance now d db;
                        transaction := None |} |},
       [Committed now db (flush_advance now d db);
        Yielded (load_mail_resource
                   (load_mail (flush_advance now d db)
                      (Dispatch.mail_id d, row)))])
    end.
Proof.
  unfold deliver, Dispatch_mail. rewrite flush_advance_mail.
  by destruct (mail db !! Dispatch.mail_id d).
Qed.

Lemma stream_mail_tick consumer s clock :
  phase s = Draining →
  stream_mail consumer s (Tick clock)
  = match head (order_by Dispatch.next_time
                  (dispatch_select (store (session s)) consumer
                     (transaction_now (session s) clock))) with
    | Some d =>
      deliver (store (session s)) (transaction_now (session s) clock) d
        Draining
    | None =>
      ({| phase := Waiting;
          session := {| store := store (session s);
                        transaction := None |} |},
       [RolledBack])
    end.
Proof. intros Hp. unfold stream_mail. by rewrite Hp, scalar_take_1. Qed.


Lemma stream_mail_notify consumer s payload clock_select clock_update :
  phase s = Waiting →
  stream_mail consumer s (Notify payload clock_select clock_update)
  = match head (filter (λ d, Dispatch.mail_id d = payload)
                  (dispatch_select (store (session s)) consumer
                     (transaction_now (session s) clock_select))) with
    | None =>
      ({| phase := Waiting;
          session :=
            {| store := store (session s);
               transaction :=
                 Some (transaction_now (session s) clock_select) |} |},
       [])
    | Some d =>
      ((deliver (store (session s)) clock_update d Waiting).1,
       RolledBack :: (deliver (store (session s)) clock_update d Waiting).2)
    end.
Proof.
  intros Hp. unfold stream_mail, scalar. rewrite Hp.
  destruct (head _); [|done]. by destruct (deliver _ _ _ _).
Qed.


(** What one resumption does to the store: it takes the commit of the
    other session, leaves the store alone, or advances one dispatch of the
    consumer. *)
Lemma stream_mail_store consumer s i :
  (∃ db, i = Other db)
  ∨ store (session (stream_mail consumer s i).1) = store (session s)
  ∨ ∃ now d,
      d ∈ dispatch (store (session s))
      ∧ Dispatch.consumer_id d = consumer
      ∧ is_Some (mail (store (session s)) !! Dispatch.mail_id d)
      ∧ store (session (stream_mail consumer s i).1)
        = flush_advance now d (store (session s)).
Proof.
  destruct (phase s) eqn:Hp, i as [clock|payload c1 c2| |db'|];
    try (left; by eexists);
    try (right; left; unfold stream_mail; by rewrite Hp).
  - rewrite (stream_mail_tick _ _ _ Hp).
    destruct (head _) as [d|] eqn:Hd; [|by right; left].
    apply order_by_head_least in Hd as [Hin _].
    apply list_elem_of_filter in Hin as [[Hc _] Hin].
    rewrite deliver_spec.
    destruct (mail _ !! Dispatch.mail_id d) as [row|] eqn:Hrow;
      [|by right; left].
    right; right. eexists _, d. split_and!; try done; by eexists.
  - rewrite (stream_mail_notify _ _ _ _ _ Hp).
    destruct (head _) as [d|] eqn:Hd; [|by right; left].
    apply head_Some_elem_of in Hd.
    apply list_elem_of_filter in Hd as [_ Hd].
    apply list_elem_of_filter in Hd as [[Hc _] Hin].
    simpl. rewrite deliver_spec.
    destruct (mail _ !! Dispatch.mail_id d) as [row|] eqn:Hrow;
      [|by right; left].
    right; right. eexists _, d. split_and!; try done; by eexists.
Qed.

Lemma flush_advance_other_consumer now d db k r :
  dispatch db !! k = Some r →
  Dispatch.consumer_id r ≠ Dispatch.consumer_id d →
  dispatch (flush_advance now d db) !! k = Some r.
Proof.
  intros Hk Hne. simpl. rewrite list_lookup_fmap, Hk. simpl.
  rewrite decide_False; [done|]. unfold Dispatch.key. congruence.
Qed.

Lemma stream_mail_run_cons consumer s i inputs :
  stream_mail_run consumer s (i :: inputs)
  = ((stream_mail_run consumer (stream_mail consumer s i).1 inputs).1,
     (stream_mail consumer s i).2
     ++ (stream_mail_run consumer (stream_mail consumer s i).1 inputs).2).
Proof.
  simpl. destruct (stream_mail consumer s i) as [s1 ev1]. simpl.
  by destruct (stream_mail_run consumer s1 inputs).
Qed.

Lemma stream_mail_run_frame consumer inputs :
  ∀ s,
    Forall own_input inputs →
    reschedules (store (session s))
      (store (session (stream_mail_run consumer s inputs).1))
    ∧ ∀ k d,
        dispatch (store (session s)) !! k = Some d →
        Dispatch.consumer_id d ≠ consumer →
        dispatch (store (session (stream_mail_run consumer s inputs).1)) !! k
        = Some d.
Proof.
  induction inputs as [|i inputs IH]; intros s Hown.
  { split; [apply reschedules_refl|done]. }
  apply Forall_cons in Hown as [Hi Hown].
  rewrite stream_mail_run_cons. simpl.
  destruct (IH (stream_mail consumer s i).1 Hown) as [Hr Hk].
  destruct (stream_mail_store consumer s i)
    as [[db ->]|[Heq|(now & d & Hd & Hc & _ & Heq)]]; [done|..].
  - rewrite Heq in Hr, Hk. by split.
  - rewrite Heq in Hr, Hk. split.
    + eapply reschedules_trans; [apply flush_advance_reschedules|exact Hr].
    + intros k r Hkr Hne. apply Hk; [|done].
      apply flush_advance_other_consumer; [done|congruence].
Qed.

Variable best_match : Accept → list string → option string.
Variable get_content_type : string → string → string.

(** X18.  Whatever the generator of [stream_mail] is resumed with, short of
    the commits of other sessions, it changes nothing but the schedule of
    dispatches of its own consumer: the other tables and the keys of the
    dispatch rows stay, so the primary and the foreign key of [dispatch] are
    preserved and [retrieve_mail] and [retrieve_attachment] answer as
    before, and the rows of other consumers are left as they are. *)
Theorem stream_mail_only_reschedules_its_consumer consumer s inputs :
  Forall own_input inputs →
  reschedules (store (session s))
    (store (session (stream_mail_run consumer s inputs).1))
  ∧ (dispatch_primary_key (store (session s)) →
     dispatch_primary_key
       (store (session (stream_mail_run consumer s inputs).1)))
  ∧ (dispatch_to_mail (store (session s)) →
     dispatch_to_mail (store (session (stream_mail_run consumer s inputs).1)))
  ∧ (∀ k d,
       dispatch (store (session s)) !! k = Some d →
       Dispatch.consumer_id d ≠ consumer →
       dispatch (store (session (stream_mail_run consumer s inputs).1)) !! k
       = Some d)
  ∧ (∀ request consumer' id,
       retrieve_mail best_match get_content_type PARSER_parsebytes unquote
         str_strip str_split
         (store (session (stream_mail_run consumer s inputs).1)) request
         consumer' id
       = retrieve_mail best_match get_content_type PARSER_parsebytes unquote
           str_strip str_split (store (session s)) request consumer' id)
  ∧ (∀ request consumer' id number,
       retrieve_attachment best_match get_content_type
         (store (session (stream_mail_run consumer s inputs).1)) request
         consumer' id number
       = retrieve_attachment best_match get_content_type (store (session s))
           request consumer' id number).
Proof.
  intros Hown. destruct (stream_mail_run_frame consumer inputs s Hown)
    as [Hr Hk].
  split; [exact Hr|].
  split; [by apply reschedules_primary_key|].
  split; [by apply reschedules_to_mail|].
  split; [exact Hk|].
  split; [intros; by apply reschedules_retrieve_mail|].
  intros; by apply reschedules_retrieve_attachment.
Qed.






Lemma stream_mail_notify_skip consumer s payload clock_select clock_update :
  phase s = Waiting →
  (∀ d,
     d ∈ dispatch (store (session s)) →
     due consumer (transaction_now (session s) clock_select) d →
     Dispatch.mail_id d ≠ payload) →
  stream_mail consumer s (Notify payload clock_select clock_update)
  = ({| phase := Waiting;
        session :=
          {| store := store (session s);
             transaction :=
               Some (transaction_now (session s) clock_select) |} |},
     []).
Proof.
  intros Hp Hnone. rewrite (stream_mail_notify _ _ _ _ _ Hp).
  destruct (head _) as [d|] eqn:Hd; [|done].
  apply head_Some_elem_of in Hd.
  apply list_elem_of_filter in Hd as [Hid Hd].
  apply list_elem_of_filter in Hd as [Hdue Hin].
  by destruct (Hnone d).
Qed.

(** X21.  A notification that is passed over leaves the session's
    transaction open, and the selects that follow see its [now()]: a later
    notification is judged at the time of the first and not at its own, so
    a dispatch that fell due in between is passed over as well; and the
    drain loop that follows the end of the notifications finds nothing
    unless it was due at that time. *)
Theorem stream_mail_skipped_notification_pins_now
    consumer s payload clock_select clock_update :
  phase s = Waiting →
  transaction (session s) = None →
  (∀ d,
     d ∈ dispatch (store (session s)) →
     due consumer clock_select d →
     Dispatch.mail_id d ≠ payload) →
  (∀ payload' clock_select' clock_update',
     (∀ d,
        d ∈ dispatch (store (session s)) →
        due consumer clock_select d →
        Dispatch.mail_id d ≠ payload') →
     stream_mail_run consumer s
       [Notify payload clock_select clock_update;
        Notify payload' clock_select' clock_update']
     = ({| phase := Waiting;
           session := {| store := store (session s);
                         transaction := Some clock_select |} |},
        []))
  ∧ (∀ clock,
       dispatch_select (store (session s)) consumer clock_select = [] →
       stream_mail_run consumer s
         [Notify payload clock_select clock_update; NotifyEnd; Tick clock]
       = ({| phase := Waiting;
             session := {| store := store (session s);
                           transaction := None |} |},
          [RolledBack])).
Proof.
  intros Hp Ht Hnone.
  assert (Hnow : ∀ clock, transaction_now (session s) clock = clock)
    by (intros clock; unfold transaction_now; by rewrite Ht).
  assert (H1 : stream_mail consumer s
                 (Notify payload clock_select clock_update)
               = ({| phase := Waiting;
                     session := {| store := store (session s);
                                   transaction := Some clock_select |} |},
                  [])).
  { rewrite stream_mail_notify_skip; [by rewrite Hnow|done|].
    by rewrite Hnow. }
  split.
  - intros payload' clock_select' clock_update' Hnone'.
    rewrite stream_mail_run_cons, H1. cbn [fst snd].
    rewrite stream_mail_run_cons, stream_mail_notify_skip; done.
  - intros clock Hnil.
    rewrite stream_mail_run_cons, H1. cbn [fst snd].
    rewrite stream_mail_run_cons.
    assert (H2 : stream_mail consumer
                   {| phase := Waiting;
                      session := {| store := store (session s);
                                    transaction := Some clock_select |} |}
                   NotifyEnd
                 = ({| phase := Draining;
                       session := {| store := store (session s);
                                     transaction := Some clock_select |} |},
                    [])) by done.
    rewrite H2. cbn [fst snd].
    rewrite stream_mail_run_cons, stream_mail_tick by done.
    simpl. unfold transaction_now. simpl. by rewrite Hnil.
Qed.

End Loops.



Lemma stream_mail_only_reschedules_its_consumer_witness :
  dispatch_primary_key (store (session sample_run.1)).
Proof.
  assert (Hown : Forall own_input
                   [Tick 1000; Tick 1001; Tick 1002; NotifyEnd; Tick 1003]).
  { repeat (constructor; [exact I|]). constructor. }
  exact (proj1 (proj2 (stream_mail_only_reschedules_its_consumer
                         sample_parsebytes (λ s, s) (λ s, s) sample_split
                         literal_match sample_content_type 1
                         (stream_mail_open sample_db) _ Hown))
           sample_db_primary_key).
Defined.



Lemma stream_mail_skipped_notification_pins_now_witness :
  stream_mail_run sample_parsebytes (λ s, s) (λ s, s) sample_split 2
    sample_waiting [Notify "second" 100 101; Notify "first" 200 201]
  = ({| phase := Waiting;
        session := {| store := sample_db; transaction := Some 100 |} |}, [])
  ∧ Yielded (sample_resource "first")
      ∈ (stream_mail sample_parsebytes (λ s, s) (λ s, s) sample_split 2
           sample_waiting (Notify "first" 200 201)).2.
Proof.
  assert (Hnone : ∀ payload d,
            d ∈ dispatch sample_db → due 2 100 d →
            Dispatch.mail_id d ≠ payload).
  { intros payload d Hd.
    assert (H : Forall (λ d, ¬ due 2 100 d) (dispatch sample_db)).
    { apply (bool_decide_eq_true_1
               (Forall (λ d, ¬ due 2 100 d) (dispatch sample_db))).
      vm_compute. reflexivity. }
    intros Hdue. by destruct (proj1 (Forall_forall _ _) H d Hd). }
  split.
  - exact (proj1 (stream_mail_skipped_notification_pins_now
                    sample_parsebytes (λ s, s) (λ s, s) sample_split 2
                    sample_waiting "second" 100 101 eq_refl eq_refl
                    (Hnone "second"))
             "first" 200 201 (Hnone "first")).
  - vm_compute.
    apply list_elem_of_further, list_elem_of_further, list_elem_of_here.
Defined.

(** ** What ingest stores and what the resource shows of it *)

Section Stored.

Variable codecs_lookup : string → option Codec.t.
Variable MAGIC_from_buffer : Payload → MagicResult.
Variable content_type_header : string → string * option string.
Variable PARSER_parsebytes : bytes → Message.
Variable Scrubber_scrub : Message → string * list Part.
Variable unquote : string → string.
Variable str_strip : string → string.
Variable str_split : string → list string.

Local Abbreviation sniff := (sniff MAGIC_from_buffer content_type_header).
Local Abbreviation load_attachment :=
  (load_attachment codecs_lookup MAGIC_from_buffer content_type_header).
Local Abbreviation load_mail_record :=
  (load_mail_record codecs_lookup MAGIC_from_buffer content_type_header
     PARSER_parsebytes Scrubber_scrub unquote str_strip).
Local Abbreviation load_mail_resource :=
  (load_mail_resource PARSER_parsebytes unquote str_strip str_split).

(** X22.  A part whose payload is bytes is stored byte for byte when its
    type after sniffing is not textual (and then without a code), and when
    it is textual and the charset in force is UTF-8: valid UTF-8 is labelled
    [utf-8], and bytes that do not decode keep the label the sniffing
    gave. *)
Theorem load_attachment_stores_bytes_as_they_are p b :
  part_data p = PBytes b →
  (startswith (sniff p).1 "text/" = false →
   load_attachment p
   = inr (part_number p,
          {| Attachment.name := Some (part_name p);
             Attachment.type := (sniff p).1;
             Attachment.code := None;
             Attachment.data := b |}))
  ∧ (codecs_lookup "utf-8" = Some Codec.utf8 →
     startswith (sniff p).1 "text/" = true →
     code_or_utf8 (sniff p).2 = "utf-8" →
     load_attachment p
     = inr (part_number p,
            {| Attachment.name := Some (part_name p);
               Attachment.type := (sniff p).1;
               Attachment.code :=
                 match Codec.utf8_decode b with
                 | Some _ => Some "utf-8"
                 | None => (sniff p).2
                 end;
               Attachment.data := b |})).
Proof.
  intros Hd. destruct (sniff p) as [type code] eqn:Hsn. simpl. split.
  - intros Ht. unfold load_attachment. rewrite Hsn.
    unfold decode_text. by rewrite Hd, Ht.
  - intros Hu Ht Hc. destruct (Codec.utf8_decode b) as [s|] eqn:Hs.
    + by apply (load_attachment_utf8 _ _ _ p type code b s).
    + apply load_attachment_keeps_undecodable_bytes; try done.
      unfold bytes_decode. rewrite Hc, Hu. simpl. by rewrite Hs.
Qed.

(** X23.  The resource made of a record that [load_mail_record] returned
    shows the id, date and text of the record, the [Sender] and [Subject] of
    the message it was loaded from, and one attachment for each part of the
    scrubber, in their order, with the number and the name of the part and
    its type after sniffing. *)
Theorem load_mail_resource_of_loaded_record origin m :
  load_mail_record origin = inr m →
  Resource.id (load_mail_resource m) = mail_object_id m
  ∧ Some (Resource.date (load_mail_resource m))
    = Date (PARSER_parsebytes origin)
  ∧ Resource.text (load_mail_resource m)
    = str_strip (Scrubber_scrub (PARSER_parsebytes origin)).1
  ∧ Resource.sender (load_mail_resource m)
    = target_of <$> Sender (PARSER_parsebytes origin)
  ∧ Resource.subject (load_mail_resource m)
    = str_strip <$> Subject (PARSER_parsebytes origin)
  ∧ Resource.from_ (load_mail_resource m)
    = unroll <$> From (PARSER_parsebytes origin)
  ∧ Forall2 (λ p a,
       Resource.attachment_number a = part_number p
       ∧ Resource.attachment_name a = Some (part_name p)
       ∧ Resource.attachment_type a = (sniff p).1)
      (Scrubber_scrub (PARSER_parsebytes origin)).2
      (Resource.attachments (load_mail_resource m)).
Proof.
  intros H. unfold load_mail_record in H. cbv zeta in H.
  destruct (Message_ID (PARSER_parsebytes origin)) as [mid|]; simpl in *;
    [|done].
  destruct (Date (PARSER_parsebytes origin)) as [date|]; simpl in *; [|done].
  destruct (Scrubber_scrub (PARSER_parsebytes origin)) as [text parts].
  destruct (mapM _ parts) as [e|attachments] eqn:Hparts; simpl in *; [done|].
  injection H as <-. unfold load_mail_resource. simpl.
  split_and!; try done.
  apply mapM_inr in Hparts. apply Forall2_fmap_r.
  eapply Forall2_impl; [done|].
  intros p a Ha. apply load_attachment_shape in Ha as (Hn & Hname & Ht & _).
  by rewrite <- Hn, <- Hname, <- Ht.
Qed.

End Stored.

Lemma load_attachment_stores_bytes_as_they_are_witness :
  load_attachment sample_codecs sample_magic sample_header utf8_part
  = inr (4, {| Attachment.name := Some "test-attachment.txt";
               Attachment.type := "text/x-diff";
               Attachment.code := Some "utf-8";
               Attachment.data := sample_bytes "hello" |})
  ∧ load_attachment sample_codecs sample_magic sample_header broken_utf8_part
    = inr (5, {| Attachment.name := Some "broken.txt";
                 Attachment.type := "text/x-diff";
                 Attachment.code := Some "utf-8";
                 Attachment.data := [xff] |}).
Proof.
  split.
  - exact (proj2 (load_attachment_stores_bytes_as_they_are sample_codecs
                    sample_magic sample_header utf8_part
                    (sample_bytes "hello") eq_refl)
             eq_refl eq_refl eq_refl).
  - exact (proj2 (load_attachment_stores_bytes_as_they_are sample_codecs
                    sample_magic sample_header broken_utf8_part [xff]
                    eq_refl)
             eq_refl eq_refl eq_refl).
Defined.

Lemma load_mail_resource_of_loaded_record_witness :
  ∃ m,
    load_mail_record sample_codecs sample_magic sample_header
      (λ _, sample_message) (λ _, ("", [utf8_part])) (λ s, s) (λ s, s)
      (sample_bytes "Content-Type: multipart/mixed") = inr m
    ∧ Resource.attachment_number
        <$> Resource.attachments
              (load_mail_resource (λ _, sample_message) (λ s, s) (λ s, s)
                 sample_split m)
      = [4].
Proof.
  destruct (load_mail_record sample_codecs sample_magic sample_header
              (λ _, sample_message) (λ _, ("", [utf8_part])) (λ s, s)
              (λ s, s) (sample_bytes "Content-Type: multipart/mixed"))
    as [e|m] eqn:H.
  { vm_compute in H. discriminate H. }
  exists m. split; [reflexivity|].
  pose proof (proj2 (proj2 (proj2 (proj2 (proj2 (proj2
                (load_mail_resource_of_loaded_record sample_codecs
                   sample_magic sample_header (λ _, sample_message)
                   (λ _, ("", [utf8_part])) (λ s, s) (λ s, s) sample_split
                   _ m H))))))) as Hparts.
  cbn [snd] in Hparts.
  remember (Resource.attachments
              (load_mail_resource (λ _, sample_message) (λ s, s) (λ s, s)
                 sample_split m)) as l eqn:Hl.
  clear Hl. destruct l as [|a [|a' l]].
  - inversion Hparts.
  - inversion Hparts as [|? ? ? ? (Hn & _) _]. simpl. by rewrite Hn.
  - inversion Hparts as [|? ? ? ? _ Hnil]. inversion Hnil.
Defined.

Lemma load_mail_record_raises_witness :
  load_mail_record sample_codecs sample_magic sample_header sample_parsebytes
    (λ _, ("", [])) (λ s, s) (λ s, s) (sample_bytes "Subject: none")
  = inl TypeError.
Proof.
  apply (proj2 (load_mail_record_raises sample_codecs sample_magic
                  sample_header sample_parsebytes (λ _, ("", [])) (λ s, s)
                  (λ s, s) (sample_bytes "Subject: none") TypeError)).
  left. split; reflexivity.
Defined.
